(** * A shallow embedding of the multi-probe lookup engine

    The development follows [backend.py] (the e-mail path built on holehe
    and trio) and [username_tracker/services/maigret_service.py] (the
    username path built on maigret).

    Python values are dynamically typed, so dictionaries produced by probes
    are kept as finite maps from field names to dynamic values; exceptions
    are threaded through an error monad; the shared [results] list filled by
    concurrently running tasks is obtained from the tasks' contributions
    and an explicit schedule. *)

From Stdlib Require Import ZArith List String Ascii Bool Lia Permutation Sorted.
From Stdlib Require Import OrderedTypeEx.
From Stdlib Require Import Floats.SpecFloat.
From stdpp Require Import gmap strings list fin_maps sorting.

(** ** Python primitives *)

Module Py.

(** Dynamic values as far as the two paths observe them: the dictionaries
    of holehe hold [None], booleans, integers, strings and dictionaries. *)
#[warnings="-register-all"] Inductive pyval : Type :=
| VNone
| VBool (b : bool)
| VInt (z : Z)
| VStr (s : string)
| VDict (items : list (string * pyval)).

(** [bool(v)]. *)
Definition truthy (v : pyval) : bool :=
  match v with
  | VNone => false
  | VBool b => b
  | VInt z => negb (z =? 0)%Z
  | VStr s => negb (String.eqb s "")
  | VDict items => match items with [] => false | _ :: _ => true end
  end.

(** Exceptions: the class name, whether the class derives from [Exception]
    (as opposed to deriving from [BaseException] only, like
    [KeyboardInterrupt], [SystemExit] or [trio.Cancelled]), and the message. *)
Record pyexc : Type := PyExc {
  exc_type : string;
  exc_is_exception : bool;
  exc_msg : string
}.

Definition ValueError (msg : string) : pyexc := PyExc "ValueError" true msg.
Definition IndexError (msg : string) : pyexc := PyExc "IndexError" true msg.
Definition TypeError (msg : string) : pyexc := PyExc "TypeError" true msg.
Definition ImportError (msg : string) : pyexc := PyExc "ImportError" true msg.
Definition ValidationError (msg : string) : pyexc := PyExc "ValidationError" true msg.

(** A computation either returns or raises. *)
Inductive result (A : Type) : Type :=
| Ok (a : A)
| Raise (e : pyexc).
Arguments Ok {A} a.
Arguments Raise {A} e.

#[global] Instance result_bind : MBind result := fun A B k r =>
  match r with
  | Ok a => k a
  | Raise e => Raise e
  end.

#[global] Instance result_ret : MRet result := fun A a => Ok a.

(** [sub in s] for strings. *)
Fixpoint contains (sub s : string) : bool :=
  String.prefix sub s ||
  match s with
  | EmptyString => false
  | String _ s' => contains sub s'
  end.

(** [s.split(sep)] for a non-empty separator: the text is scanned from the
    left, [cur] is the piece being read and [skip] counts the characters of
    a separator just recognised that still have to be passed over. *)
Fixpoint split_go (sep : string) (skip : nat) (cur s : string) : list string :=
  match s with
  | EmptyString => [cur]
  | String c s' =>
      match skip with
      | S k => split_go sep k cur s'
      | O =>
          if String.prefix sep s
          then cur :: split_go sep (String.length sep - 1) "" s'
          else split_go sep 0 (cur +:+ String c "") s'
      end
  end.

Definition split (sep s : string) : list string := split_go sep 0 "" s.

(** [s.lower()] on the letters A-Z. For the comparison with "claimed" and
    "found" this agrees with Python's Unicode-aware [lower]: no character
    outside A-Z lowers to one of the letters of these two words. *)
Definition lower_ascii (c : ascii) : ascii :=
  let n := nat_of_ascii c in
  if (65 <=? n) && (n <=? 90) then ascii_of_nat (n + 32) else c.

Fixpoint lower (s : string) : string :=
  match s with
  | EmptyString => EmptyString
  | String c s' => String (lower_ascii c) (lower s')
  end.

(** [type(v).__name__] *)
Definition type_name (v : pyval) : string :=
  match v with
  | VNone => "NoneType"
  | VBool _ => "bool"
  | VInt _ => "int"
  | VStr _ => "str"
  | VDict _ => "dict"
  end.

(** [a < b] as [list.sort] uses it on keys: strings are ordered
    lexicographically by code point, numbers ([bool] is a subclass of
    [int]) numerically; every other pair of these values is unorderable,
    and the [TypeError] names the two types. *)
Definition as_number (v : pyval) : option Z :=
  match v with
  | VBool b => Some (if b then 1 else 0)%Z
  | VInt z => Some z
  | _ => None
  end.

Definition py_lt (a b : pyval) : result bool :=
  match a, b with
  | VStr s, VStr t => Ok (String.ltb s t)
  | _, _ =>
      match as_number a, as_number b with
      | Some x, Some y => Ok (x <? y)%Z
      | _, _ =>
          Raise (TypeError ("'<' not supported between instances of '" +:+
                            type_name a +:+ "' and '" +:+ type_name b +:+ "'"))
      end
  end.

(** [a <= b] in the only form a sort observes it: [b < a] is [False]. *)
Definition py_le (a b : pyval) : Prop := py_lt b a = Ok false.

Definition is_str (v : pyval) : bool :=
  match v with
  | VStr _ => true
  | _ => false
  end.

(** *** A fragment of [re]

    Enough of the pattern language for [EMAIL_FORMAT]: the word boundary
    [\b], a literal character, and a character class repeated at least
    [min] times ([+] is [min = 1], [{2,}] is [min = 2]). *)
Inductive re_item : Type :=
| ReWordBoundary
| ReChar (c : ascii)
| ReClass (cls : ascii → bool) (min : nat).

Definition in_range (lo hi : nat) (c : ascii) : bool :=
  let n := nat_of_ascii c in (lo <=? n) && (n <=? hi).

Definition is_upper : ascii → bool := in_range 65 90.
Definition is_lower : ascii → bool := in_range 97 122.
Definition is_digit : ascii → bool := in_range 48 57.
Definition one_of (cs : string) (c : ascii) : bool :=
  existsb (Ascii.eqb c) (list_ascii_of_string cs).

(** [\w] on the characters the classes of the pattern can consume. *)
Definition is_word_char (c : ascii) : bool :=
  is_upper c || is_lower c || is_digit c || one_of "_" c.

Definition is_word_opt (o : option ascii) : bool :=
  match o with
  | Some c => is_word_char c
  | None => false
  end.

Definition next_char (s : string) : option ascii :=
  match s with
  | EmptyString => None
  | String c _ => Some c
  end.

(** [re_match_end items prev s]: the items match exactly the text [s], the
    character before [s] being [prev]. Repetitions try every length, as a
    backtracking matcher does. *)
Fixpoint re_match_end (items : list re_item) : option ascii → string → bool :=
  match items with
  | [] => fun _ s => match s with EmptyString => true | _ => false end
  | ReWordBoundary :: rest =>
      fun prev s =>
        xorb (is_word_opt prev) (is_word_opt (next_char s)) &&
        re_match_end rest prev s
  | ReChar c :: rest =>
      fun _ s =>
        match s with
        | String x s' => Ascii.eqb x c && re_match_end rest (Some x) s'
        | EmptyString => false
        end
  | ReClass cls min :: rest =>
      (fix rep (n : nat) (prev : option ascii) (s : string) {struct s} : bool :=
         ((min <=? n) && re_match_end rest prev s) ||
         match s with
         | String x s' => cls x && rep (S n) (Some x) s'
         | EmptyString => false
         end) 0
  end.

(** [bool(re.fullmatch(pattern, s))]. *)
Definition fullmatch (pattern : list re_item) (s : string) : bool :=
  re_match_end pattern None s.

End Py.

(** [list.sort(key=...)]: a stable sort that only uses [<] on the keys.
    Modelled as insertion of each element, in list order, behind the
    elements of the sorted prefix that are not greater; the sort raises as
    soon as two keys cannot be ordered. *)
Module PySort.
Import Py.

Section Sort.
Context {A : Type} (key : A → pyval).

Fixpoint insort (x : A) (l : list A) : result (list A) :=
  match l with
  | [] => Ok [x]
  | y :: l' =>
      b ← py_lt (key x) (key y);
      if b : bool then Ok (x :: y :: l')
      else r ← insort x l'; Ok (y :: r)
  end.

Definition list_sort (l : list A) : result (list A) :=
  foldl (fun acc x => sorted ← acc; insort x sorted) (Ok []) l.

(** Ascending order of the keys: no element is followed, anywhere later in
    the list, by one with a smaller key. *)
Definition key_le (a b : A) : Prop := py_le (key a) (key b).
Definition ascending (l : list A) : Prop := StronglySorted key_le l.

Definition str_keyed (x : A) : Prop := is_str (key x) = true.

#[global] Instance str_keyed_dec x : Decision (str_keyed x).
Proof. unfold str_keyed. apply _. Defined.

End Sort.
End PySort.

(** ** The e-mail path ([backend.py]) *)

Module Backend.
Import Py PySort.

(** A raw result: the dictionary a holehe module appends to [results]. *)
Abbreviation outcome := (gmap string pyval).

(** [d.get(k)] and [d.get(k, dflt)]. *)
Definition get (d : outcome) (k : string) : pyval := default VNone (d !! k).
Definition get_or (d : outcome) (k : string) (dflt : pyval) : pyval :=
  default dflt (d !! k).

(** [r'\b[A-Za-z0-9._%+-]+@[A-Za-z0-9.-]+\.[A-Z|a-z]{2,}\b'] *)
Definition EMAIL_FORMAT : list re_item :=
  [ ReWordBoundary;
    ReClass (fun c => is_upper c || is_lower c || is_digit c || one_of "._%+-" c) 1;
    ReChar "@"%char;
    ReClass (fun c => is_upper c || is_lower c || is_digit c || one_of ".-" c) 1;
    ReChar "."%char;
    ReClass (fun c => is_upper c || one_of "|" c || is_lower c) 2;
    ReWordBoundary ].

Definition DOMAIN_MAP : gmap string string :=
  list_to_map
    [ ("aboutme", "about.me"); ("adobe", "adobe.com"); ("amazon", "amazon.com");
      ("anydo", "any.do"); ("archive", "archive.org");
      ("armurerieauxerre", "armurerie-auxerre.com");
      ("atlassian", "atlassian.com"); ("instagram", "instagram.com");
      ("twitter", "twitter.com");
      ("github", "github.com"); ("google", "google.com"); ("spotify", "spotify.com");
      ("discord", "discord.com"); ("tumblr", "tumblr.com");
      ("pinterest", "pinterest.com");
      ("facebook", "facebook.com"); ("linkedin", "linkedin.com");
      ("snapchat", "snapchat.com");
      ("reddit", "reddit.com"); ("tiktok", "tiktok.com"); ("netflix", "netflix.com") ].

(** The pydantic models. *)
Record PlatformInfo : Type := {
  platform : string;
  name : string;
  exists_ : bool;
  email_recovery : option string;
  phone_number : option string;
  additional_info : option (list (string * pyval))
}.

Record EmailCheckResponse : Type := {
  success : bool;
  email : string;
  total_checked : nat;
  found_count : nat;
  platforms_found : list string;
  detailed_results : option (list PlatformInfo);
  checked_at : string
}.

(** Field validation done by pydantic when a model is built: a [str] field
    takes a string, an [Optional[...]] field also takes [None]. *)
Definition as_str (field : string) (v : pyval) : result string :=
  match v with
  | VStr s => Ok s
  | _ => Raise (ValidationError field)
  end.

Definition as_optional_str (field : string) (v : pyval) : result (option string) :=
  match v with
  | VNone => Ok None
  | VStr s => Ok (Some s)
  | _ => Raise (ValidationError field)
  end.

Definition as_optional_dict (field : string) (v : pyval)
  : result (option (list (string * pyval))) :=
  match v with
  | VNone => Ok None
  | VDict items => Ok (Some items)
  | _ => Raise (ValidationError field)
  end.

(** [PlatformInfo(platform=..., name=..., exists=..., ...)] *)
Definition PlatformInfo_new (platform_v name_v : pyval) (exists_v : bool)
    (email_recovery_v phone_number_v additional_info_v : pyval) : result PlatformInfo :=
  p ← as_str "platform" platform_v;
  n ← as_str "name" name_v;
  e ← as_optional_str "email_recovery" email_recovery_v;
  ph ← as_optional_str "phone_number" phone_number_v;
  a ← as_optional_dict "additional_info" additional_info_v;
  Ok {| platform := p; name := n; exists_ := exists_v;
        email_recovery := e; phone_number := ph; additional_info := a |}.

(** The shared transport handed to every probe. *)
Record client : Type := AsyncClient { client_timeout : Z }.

(** A check function found in a holehe module. The engine observes two
    things of it: [str(module)], and what awaiting
    [module(email, client, results)] does, namely which dictionaries it
    appends to [results] and whether it then raises. *)
Record probe : Type := Probe {
  probe_str : string;
  probe_call : string → client → list outcome * option pyexc
}.

(** A module seen through its [__dict__]. *)
Abbreviation pymodule := (gmap string probe).

(** [import_holehe_modules]: the walk over the installed package is the
    interpreter's business; [installed] is the dictionary of submodules it
    finds, in order, or [None] when the package cannot be imported. *)
Definition import_holehe_modules (installed : option (list (string * pymodule)))
  : result (list (string * pymodule)) :=
  match installed with
  | Some modules => Ok modules
  | None =>
      Raise (ImportError "Holehe package not found. Install it with: pip install holehe")
  end.

Definition exclude_list : list string :=
  ["adobe"; "mail_ru"; "odnoklassniki"; "samsung"].

(** The body of the loop of [get_check_functions] for one module. *)
Definition check_functions_of (exclude_password_recovery : bool)
    (module_name : string) (module : pymodule) : list probe :=
  if 3 <? length (split "." module_name) then
    match last (split "." module_name) with
    | Some site =>
        match module !! site with
        | Some f =>
            if exclude_password_recovery then
              if negb (existsb (fun excluded => contains excluded (probe_str f)) exclude_list)
              then [f] else []
            else [f]
        | None => []
        end
    | None => []
    end
  else [].

Definition get_check_functions (modules : list (string * pymodule))
    (exclude_password_recovery : bool) : list probe :=
  flat_map (fun nm => check_functions_of exclude_password_recovery nm.1 nm.2) modules.

Definition is_valid_email (email : string) : bool := fullmatch EMAIL_FORMAT email.

(** The name recovered from [str(module)]:
    [str(module).split('<function ')[1].split(' ')[0] if '<function' in str(module) else 'unknown'] *)
Definition probe_name (s : string) : result string :=
  if contains "<function" s then
    match split "<function " s !! 1 with
    | Some after =>
        match split " " after !! 0 with
        | Some token => Ok token
        | None => Raise (IndexError "list index out of range")
        end
    | None => Raise (IndexError "list index out of range")
    end
  else Ok "unknown".

(** The dictionary appended by the handler of [launch_module_check]. *)
Definition errored_outcome (name domain : string) : outcome :=
  list_to_map
    [ ("name", VStr name); ("domain", VStr domain); ("rateLimit", VBool false);
      ("error", VBool true); ("exists", VBool false); ("emailrecovery", VNone);
      ("phoneNumber", VNone); ("others", VNone) ].

(** One task of the nursery. The result is what the task appends to the
    shared [results] list, in order, and the exception that leaves the
    task, if any. [except Exception] lets exceptions that only derive from
    [BaseException] through, and an exception raised inside the handler
    leaves the task as well. *)
Definition launch_module_check (module : probe) (email : string) (c : client)
  : list outcome * option pyexc :=
  match probe_call module email c with
  | (appended, None) => (appended, None)
  | (appended, Some e) =>
      if exc_is_exception e then
        match probe_name (probe_str module) with
        | Ok name =>
            let domain := default "unknown" (DOMAIN_MAP !! name) in
            (appended ++ [errored_outcome name domain], None)
        | Raise e' => (appended, Some e')
        end
      else (appended, Some e)
  end.

(** What the instrumented engine does, in order. *)
Inductive event : Type :=
| EvValidate (email : string)
| EvImport
| EvLaunch (module_str : string).

(** The shared [results] list when the nursery block is left. [pending]
    holds, per task, what the task still has to append; the schedule names
    the task whose next append comes first. Every task runs to completion
    before the block is left, so what the schedule leaves over is appended
    in start order. *)
Fixpoint collect (schedule : list nat) (pending : list (list outcome)) : list outcome :=
  match schedule with
  | [] => concat pending
  | i :: schedule' =>
      match pending !! i with
      | Some (o :: rest) => o :: collect schedule' (<[i := rest]> pending)
      | _ => collect schedule' pending
      end
  end.

(** An exception that leaves a task leaves the nursery block; the first
    one in start order stands for what trio reports. *)
Definition first_raised (tasks : list (list outcome * option pyexc)) : option pyexc :=
  head (omap snd tasks).

(** [lambda x: x.get('name', '')] *)
Definition sort_key (x : outcome) : pyval := get_or x "name" (VStr "").

Definition check_email_trio (installed : option (list (string * pymodule)))
    (schedule : list nat) (email : string) (exclude_password_recovery : bool)
    (timeout : Z) : list event * result (list outcome) :=
  if negb (is_valid_email email) then
    ([EvValidate email], Raise (ValueError ("Invalid email format: " +:+ email)))
  else
    match import_holehe_modules installed with
    | Raise e => ([EvValidate email; EvImport], Raise e)
    | Ok modules =>
        let websites := get_check_functions modules exclude_password_recovery in
        let c := AsyncClient timeout in
        let tasks := (fun website => launch_module_check website email c) <$> websites in
        let log :=
          [EvValidate email; EvImport] ++
          ((fun website => EvLaunch (probe_str website)) <$> websites) in
        match first_raised tasks with
        | Some e => (log, Raise e)
        | None => (log, list_sort sort_key (collect schedule (fst <$> tasks)))
        end
    end.

(** The loop of [format_results], with its two accumulators. *)
Fixpoint format_loop (only_found : bool) (raw_results : list outcome)
    (platforms_found : list string) (detailed_results : list PlatformInfo)
  : result (list string * list PlatformInfo) :=
  match raw_results with
  | [] => Ok (platforms_found, detailed_results)
  | result :: rest =>
      if truthy (get result "exists") then
        let platform_name := get_or result "domain" (VStr "unknown") in
        info ← PlatformInfo_new platform_name (get_or result "name" (VStr "")) true
                 (get result "emailrecovery") (get result "phoneNumber")
                 (get result "others");
        format_loop only_found rest
          (platforms_found ++ [platform info]) (detailed_results ++ [info])
      else if negb only_found then
        info ← PlatformInfo_new (get_or result "domain" (VStr "unknown"))
                 (get_or result "name" (VStr "")) false VNone VNone VNone;
        format_loop only_found rest platforms_found (detailed_results ++ [info])
      else format_loop only_found rest platforms_found detailed_results
  end.

(** [format_results]; [now] is [datetime.utcnow().isoformat()]. *)
Definition format_results (now : string) (raw_results : list outcome)
    (email_ : string) (only_found : bool) : result EmailCheckResponse :=
  acc ← format_loop only_found raw_results [] [];
  Ok {| success := true;
        email := email_;
        total_checked := length raw_results;
        found_count := length acc.1;
        platforms_found := acc.1;
        detailed_results := if negb only_found then Some acc.2 else None;
        checked_at := now |}.

(** *** Vocabulary for the statements about the e-mail path *)

(** The name a raw result is sorted by, when it is a string. *)
Definition name_str (r : outcome) : string :=
  match sort_key r with
  | VStr s => s
  | _ => ""
  end.

(** A function name as it appears in [str(function)]: no space and no
    ["<"] in it. *)
Fixpoint plain_name (n : string) : bool :=
  match n with
  | EmptyString => true
  | String c n' =>
      negb (Ascii.eqb " " c) && negb (Ascii.eqb "<" c) && plain_name n'
  end.

(** What a task leaves in the shared list. *)
Definition contribution (email_ : string) (c : client) (module : probe) : list outcome :=
  (launch_module_check module email_ c).1.

(** No exception leaves the task. *)
Definition contained (email_ : string) (c : client) (module : probe) : Prop :=
  (launch_module_check module email_ c).2 = None.

(** The raw results that reach [detailed_results]. *)
Definition kept (only_found : bool) (r : outcome) : Prop :=
  only_found = false ∨ truthy (get r "exists") = true.

#[global] Instance kept_dec only_found r : Decision (kept only_found r).
Proof. unfold kept. apply _. Defined.

(** The test [result.get('exists')] of [format_results]. *)
Definition is_found (r : outcome) : bool := truthy (get r "exists").

(** [info] is the [PlatformInfo] built from the raw result [r]. *)
Definition info_of (r : outcome) (info : PlatformInfo) : Prop :=
  exists_ info = is_found r ∧
  VStr (platform info) = get_or r "domain" (VStr "unknown") ∧
  VStr (name info) = get_or r "name" (VStr "").

Definition is_optional_str (v : pyval) : bool :=
  match v with
  | VNone | VStr _ => true
  | _ => false
  end.

Definition is_optional_dict (v : pyval) : bool :=
  match v with
  | VNone | VDict _ => true
  | _ => false
  end.

(** A raw result whose fields have the types holehe gives them (a field
    may be absent). *)
Definition well_shaped (r : outcome) : bool :=
  is_str (get_or r "domain" (VStr "unknown")) &&
  is_str (get_or r "name" (VStr "")) &&
  is_optional_str (get r "emailrecovery") &&
  is_optional_str (get r "phoneNumber") &&
  is_optional_dict (get r "others").

(** The outcome recorded for a probe that raised. *)
Definition is_errored (r : outcome) : bool :=
  truthy (get r "error") && negb (truthy (get r "exists")).

(** A probe that fails outright: it appends nothing and raises an
    [Exception], and the handler can recover a name from [str(module)]. *)
Definition raises_cleanly (module : probe) (email_ : string) (c : client) : bool :=
  match probe_call module email_ c with
  | ([], Some e) =>
      exc_is_exception e &&
      match probe_name (probe_str module) with Ok _ => true | Raise _ => false end
  | _ => false
  end.

(** [o] is the one outcome the probe [w] leaves: the errored outcome under
    its recovered name if it fails outright, else the dictionary it
    appends. *)
Definition leaves (email_ : string) (c : client) (w : probe) (o : outcome) : Prop :=
  (raises_cleanly w email_ c = true ∧
   ∃ n, probe_name (probe_str w) = Ok n ∧
        o = errored_outcome n (default "unknown" (DOMAIN_MAP !! n))) ∨
  probe_call w email_ c = ([o], None).

(** A probe that reports normally: it appends exactly one dictionary, with
    a string under ["name"], and returns. *)
Definition reports_once (module : probe) (email_ : string) (c : client) : bool :=
  match probe_call module email_ c with
  | ([o], None) => is_str (sort_key o)
  | _ => false
  end.

End Backend.

(** ** The username path ([username_tracker/services/maigret_service.py]) *)

Module MaigretService.
Import Py.

(** The [status] attribute of a check result, as the service observes it
    through [bool(...)] and [str(...)]: a plain string, or an object (an
    enumeration member, say) that prints as [text]. *)
Inductive status_attr : Type :=
| StatusStr (s : string)
| StatusObj (text : string).

Definition status_truthy (st : status_attr) : bool :=
  match st with
  | StatusStr s => negb (String.eqb s "")
  | StatusObj _ => true
  end.

Definition status_text (st : status_attr) : string :=
  match st with
  | StatusStr s => s
  | StatusObj text => text
  end.

(** The object stored under ["status"]; an attribute that is missing or
    [None] is [None] here. *)
Record MaigretCheck : Type := {
  check_status : option status_attr;
  check_tags : option (list string)
}.

(** One value of [raw_results], seen through the four [get]s applied to it. *)
Record site_data : Type := {
  sd_status : option MaigretCheck;
  sd_url_main : pyval;
  sd_url_user : pyval;
  sd_category : pyval
}.

(** The dictionary built for each site. *)
Record entry : Type := {
  site : string;
  url_main : pyval;
  url_user : pyval;
  category : pyval;
  status : option status_attr;
  tags : list string
}.

(** The dictionary returned by [maigret_search_username]. *)
Record search_response : Type := {
  username : string;
  sites_found : list entry;
  sites_not_found : list entry;
  total_sites_checked : nat
}.

(** The maigret library, which the service only calls: the location of its
    [data.json], the loading of the database, the lookup of the ranked
    sites ([top], [tags], [names], [disabled], [id_type]) and the search
    itself ([username], [site_dict], [timeout], [cookies]). *)
Class Maigret : Type := {
  MaigretDatabase : Type;
  MaigretSite : Type;
  MAIGRET_DB_FILE : string;
  load_from_path : string → result MaigretDatabase;
  ranked_sites_dict :
    MaigretDatabase → nat → list string → list string → bool → string →
    result (list (string * MaigretSite));
  search :
    string → list (string * MaigretSite) → Z → option string →
    result (list (string * site_data))
}.

Section Service.
Context `{M : Maigret}.

Definition _load_sites (top_sites : nat) (tags_ site_list : option (list string))
  : result (list (string * MaigretSite)) :=
  db ← load_from_path MAIGRET_DB_FILE;
  let tags_ := default [] tags_ in
  let site_list := default [] site_list in
  ranked_sites_dict db top_sites tags_ site_list false "username".

(** [status_str and str(status_str).lower() in {"claimed", "found"}] *)
Definition is_claimed (status_str : option status_attr) : bool :=
  match status_str with
  | Some st =>
      status_truthy st &&
      (let s := lower (status_text st) in String.eqb s "claimed" || String.eqb s "found")
  | None => false
  end.

Definition make_entry (site_name : string) (sd : site_data) : entry :=
  let status_obj := sd_status sd in
  let status_str :=
    match status_obj with
    | Some o => check_status o
    | None => None
    end in
  let tags_list :=
    match status_obj with
    | Some o => default [] (check_tags o)
    | None => []
    end in
  {| site := site_name;
     url_main := sd_url_main sd;
     url_user := sd_url_user sd;
     category := sd_category sd;
     status := status_str;
     tags := tags_list |}.

(** The loop over [raw_results.items()]. *)
Fixpoint classify (items : list (string * site_data))
    (found not_found : list entry) : list entry * list entry :=
  match items with
  | [] => (found, not_found)
  | (site_name, sd) :: rest =>
      let e := make_entry site_name sd in
      if is_claimed (status e)
      then classify rest (found ++ [e]) not_found
      else classify rest found (not_found ++ [e])
  end.

(** Vocabulary: the entry of an item of [raw_results], and whether the loop
    files it under [sites_found]. *)
Definition entry_of (item : string * site_data) : entry := make_entry item.1 item.2.
Definition claimed (item : string * site_data) : Prop :=
  is_claimed (status (entry_of item)) = true.

#[global] Instance claimed_dec item : Decision (claimed item).
Proof. unfold claimed. apply _. Defined.

Definition maigret_search_username (username_ : string) (top_sites : nat)
    (timeout : Z) (tags_ site_list : option (list string)) (use_cookies : bool)
  : result search_response :=
  sites ← _load_sites top_sites tags_ site_list;
  let cookies_file := if use_cookies then Some "cookies.txt" else None in
  raw_results ← search username_ sites timeout cookies_file;
  let parts := classify raw_results [] [] in
  Ok {| username := username_;
        sites_found := parts.1;
        sites_not_found := parts.2;
        total_sites_checked := length raw_results |}.

End Service.

(** A maigret whose catalogue is a fixed list of site names, whose lookup
    keeps the sites whose name is listed in [names] (all of them when
    [names] is empty), and whose search reports every site it is given as
    claimed. *)
Definition listing_maigret (catalogue : list string) : Maigret := {|
  MaigretDatabase := list string;
  MaigretSite := unit;
  MAIGRET_DB_FILE := "resources/data.json";
  load_from_path := fun _ => Ok catalogue;
  ranked_sites_dict := fun db top tags_ names _ _ =>
    Ok ((fun n => (n, tt)) <$>
          take top (filter (fun n => names = [] ∨ n ∈ names) db));
  search := fun _ sites _ _ =>
    Ok ((fun s => (s.1, {| sd_status := Some {| check_status := Some (StatusObj "Claimed");
                                                check_tags := None |};
                           sd_url_main := VNone; sd_url_user := VNone;
                           sd_category := VNone |})) <$> sites)
|}.

End MaigretService.

(** ** Sample catalogues and results *)

Module Samples.
Import Py Backend MaigretService.

Definition holehe_result (name_ domain_ : string) (exists_v : bool) : outcome :=
  list_to_map
    [ ("name", VStr name_); ("domain", VStr domain_); ("rateLimit", VBool false);
      ("exists", VBool exists_v); ("emailrecovery", VNone); ("phoneNumber", VNone);
      ("others", VNone) ].

Definition github_found : outcome := holehe_result "github" "github.com" true.
Definition twitter_absent : outcome := holehe_result "twitter" "twitter.com" false.

(** A check function [fname] that appends [o] and returns. *)
Definition reporting (fname : string) (o : outcome) : probe :=
  Probe ("<function " +:+ fname +:+ " at 0x7f3a5c1d2e50>") (fun _ _ => ([o], None)).

(** A callable printing as [str_] that raises [e]. *)
Definition raising (str_ : string) (e : pyexc) : probe :=
  Probe str_ (fun _ _ => ([], Some e)).

(** The module [holehe.modules.social_media.<fname>] defining [fname]. *)
Definition holehe_module (fname : string) (f : probe) : string * pymodule :=
  ("holehe.modules.social_media." +:+ fname, {[ fname := f ]}).

Definition ReadTimeout : pyexc := PyExc "ReadTimeout" true "timed out".

(** The catalogue of the specification's example: one probe finds the
    address, one does not, one raises. *)
Definition three_probes : list (string * pymodule) :=
  [ holehe_module "github" (reporting "github" github_found);
    holehe_module "twitter" (reporting "twitter" twitter_absent);
    holehe_module "yahoo"
      (raising "<function yahoo at 0x7f3a5c1d2f70>" (ValueError "boom")) ].


(** A callable object of a class [Probe] defined in a module [functions]. *)
Definition object_probe : probe :=
  raising "<functions.Probe object at 0x7f3a5c1d2e50>" (ValueError "boom").

Definition claimed_site : site_data :=
  {| sd_status := Some {| check_status := Some (StatusObj "Claimed"); check_tags := None |};
     sd_url_main := VNone; sd_url_user := VNone; sd_category := VNone |}.

Definition no_status_site : site_data :=
  {| sd_status := None; sd_url_main := VNone; sd_url_user := VNone;
     sd_category := VNone |}.

(** A maigret with an empty catalogue whose search returns [raw_results]. *)
Definition answering_maigret (raw_results : list (string * site_data)) : Maigret := {|
  MaigretDatabase := unit;
  MaigretSite := unit;
  MAIGRET_DB_FILE := "resources/data.json";
  load_from_path := fun _ => Ok tt;
  ranked_sites_dict := fun _ _ _ _ _ _ => Ok [];
  search := fun _ _ _ _ => Ok raw_results
|}.

End Samples.

(** ** The pattern [EMAIL_FORMAT], piece by piece *)

Module EmailSyntax.
Import Py Backend.

(** The three character classes of the pattern. *)
Definition local_char (c : ascii) : bool :=
  is_upper c || is_lower c || is_digit c || one_of "._%+-" c.
Definition domain_char (c : ascii) : bool :=
  is_upper c || is_lower c || is_digit c || one_of ".-" c.
Definition tld_char (c : ascii) : bool :=
  is_upper c || one_of "|" c || is_lower c.

Fixpoint all_chars (cls : ascii → bool) (s : string) : bool :=
  match s with
  | EmptyString => true
  | String c s' => cls c && all_chars cls s'
  end.

(** The last character of [s], or [prev] when [s] is empty. *)
Fixpoint last_char (prev : option ascii) (s : string) : option ascii :=
  match s with
  | EmptyString => prev
  | String c s' => last_char (Some c) s'
  end.

(** How often the character [c] occurs in [s]. *)
Fixpoint occurrences (c : ascii) (s : string) : nat :=
  match s with
  | EmptyString => 0
  | String x s' => (if Ascii.eqb x c then 1 else 0) + occurrences c s'
  end.

(** The repetition of a class inside [re_match_end], [n] characters of the
    class having been read. *)
Fixpoint class_rep (cls : ascii → bool) (min : nat)
    (rest : option ascii → string → bool)
    (n : nat) (prev : option ascii) (s : string) : bool :=
  ((min <=? n) && rest prev s) ||
  match s with
  | String x s' => cls x && class_rep cls min rest (S n) (Some x) s'
  | EmptyString => false
  end.

(** An address of the shape [local@domain.tld] the pattern accepts. *)
Definition well_formed_address (s : string) : Prop :=
  ∃ l d t,
    s = l +:+ "@" +:+ d +:+ "." +:+ t ∧
    1 ≤ String.length l ∧ all_chars local_char l = true ∧
    1 ≤ String.length d ∧ all_chars domain_char d = true ∧
    2 ≤ String.length t ∧ all_chars tld_char t = true ∧
    is_word_opt (next_char l) = true ∧
    is_word_opt (last_char None t) = true.

End EmailSyntax.

(** ** The selection of check functions, piece by piece *)

Module Catalog.
Import Py Backend.

(** [any(excluded in str(f) for excluded in exclude_list)] *)
Definition is_excluded (f : probe) : bool :=
  existsb (fun excluded => contains excluded (probe_str f)) exclude_list.

(** The attribute looked up in a module: the last component of a dotted
    name with more than three components. *)
Definition site_of (module_name : string) : option string :=
  if 3 <? length (split "." module_name) then last (split "." module_name) else None.

Definition is_number (v : pyval) : bool :=
  match v with
  | VBool _ | VInt _ => true
  | _ => false
  end.

(** Values that [<] relates to nothing, themselves included. *)
Definition is_unorderable (v : pyval) : bool :=
  match v with
  | VNone | VDict _ => true
  | _ => false
  end.

End Catalog.

(** ** The HTTP endpoints of [backend.py] *)

Module Api.
Import Py PySort Backend.

(** What a handler ends with: a response body, an [HTTPException] (which
    FastAPI turns into an error response), or an exception that leaves the
    handler. *)
Inductive http (A : Type) : Type :=
| Respond (body : A)
| HTTPException (status_code : nat) (detail : string)
| Unhandled (e : pyexc).
Arguments Respond {A} body.
Arguments HTTPException {A} status_code detail.
Arguments Unhandled {A} e.

(** The class hierarchy of the running interpreter, as far as [except]
    clauses consult it: [isinstance e cls]. *)
Class ClassTable : Type := { isinstance : pyexc → string → bool }.

(** A table in which every exception is an instance of its own class only. *)
Definition own_class_only : ClassTable :=
  {| isinstance := fun e cls => String.eqb (exc_type e) cls |}.

(** [check_email_on_platforms]: [trio.run] in a worker thread hands back the
    result of [check_email_trio], or its exception. *)
Definition check_email_on_platforms (installed : option (list (string * pymodule)))
    (schedule : list nat) (email : string) (exclude_password_recovery : bool)
    (timeout : Z) : result (list outcome) :=
  (check_email_trio installed schedule email exclude_password_recovery timeout).2.

(** pydantic's [EmailStr], the type of the addresses in the bodies of the two
    [POST] requests. FastAPI validates the body before it calls the handler:
    [validate_email s] is [None] when [s] is refused, else the normalised
    address the handler receives. The check itself is that of the
    email-validator package. *)
Class EmailStr : Type := { validate_email : string → option string }.

(** A stand-in for [EmailStr] in examples: it accepts [local@domain] with
    both parts non-empty and without a space, and returns it unchanged. *)
Definition simple_email_str : EmailStr :=
  {| validate_email := fun s =>
       match split "@" s with
       | [l; d] =>
           if negb (String.eqb l "") && negb (String.eqb d "") && negb (contains " " s)
           then Some s else None
       | _ => None
       end |}.

(** What the client of a [POST] endpoint gets: status 422 when the body does
    not validate, the handler not being called, else what the handler ends
    with. *)
Inductive answer (A : Type) : Type :=
| Unprocessable
| Handled (h : http A).
Arguments Unprocessable {A}.
Arguments Handled {A} h.

(** The request object the handler of [POST /api/check-email] receives:
    [req_email] is an address [EmailStr] has returned. *)
Record EmailCheckRequest : Type := {
  req_email : string;
  req_exclude_password_recovery : option bool;
  req_only_found : option bool
}.

(** An [Optional[bool]] used as a condition: [None] is falsy. *)
Definition flag (o : option bool) : bool := default false o.

Section Handlers.
Context `{CT : ClassTable}.

(** The handler of [POST /api/check-email]. *)
Definition check_email_post (installed : option (list (string * pymodule)))
    (schedule : list nat) (now : string) (request : EmailCheckRequest)
  : http EmailCheckResponse :=
  match
    raw_results ← check_email_on_platforms installed schedule (req_email request)
                    (flag (req_exclude_password_recovery request)) 15;
    format_results now raw_results (req_email request) (flag (req_only_found request))
  with
  | Ok formatted_response => Respond formatted_response
  | Raise e =>
      if isinstance e "ValueError" then HTTPException 400 (exc_msg e)
      else if isinstance e "ImportError" then
        HTTPException 500
          ("Holehe module error: " +:+ exc_msg e +:+ ". Make sure holehe is installed.")
      else if exc_is_exception e then HTTPException 500 ("Internal error: " +:+ exc_msg e)
      else Unhandled e
  end.

(** The body of [GET /api/check-email]. *)
Record EmailGetResponse : Type := {
  get_success : bool;
  get_email : string;
  get_platforms_found : list pyval;
  get_count : nat;
  get_checked_at : string
}.

(** [[r.get('domain', 'unknown') for r in raw_results if r.get('exists', False)]] *)
Definition domains_found (raw_results : list outcome) : list pyval :=
  (fun r => get_or r "domain" (VStr "unknown")) <$>
  filter (fun r => truthy (get_or r "exists" (VBool false)) = true) raw_results.

(** [GET /api/check-email]; the query parameter [only_found] is accepted
    and not used. *)
Definition check_email_get (installed : option (list (string * pymodule)))
    (schedule : list nat) (now : string) (email : string) (only_found : bool)
  : http EmailGetResponse :=
  if negb (is_valid_email email) then HTTPException 400 "Invalid email format"
  else
    match check_email_on_platforms installed schedule email true 15 with
    | Ok raw_results =>
        let platforms_found := domains_found raw_results in
        Respond {| get_success := true;
                   get_email := email;
                   get_platforms_found := platforms_found;
                   get_count := length platforms_found;
                   get_checked_at := now |}
    | Raise e =>
        if isinstance e "HTTPException" then Unhandled e
        else if exc_is_exception e then HTTPException 500 ("Internal error: " +:+ exc_msg e)
        else Unhandled e
    end.

(** [POST /api/check-email] as served: the [email] of the body is validated
    as [EmailStr], then the handler runs on the validated request. *)
Definition post_check_email `{ES : EmailStr} (installed : option (list (string * pymodule)))
    (schedule : list nat) (now : string) (email : string)
    (exclude_password_recovery only_found : option bool)
  : answer EmailCheckResponse :=
  match validate_email email with
  | None => Unprocessable
  | Some validated =>
      Handled (check_email_post installed schedule now
                 {| req_email := validated;
                    req_exclude_password_recovery := exclude_password_recovery;
                    req_only_found := only_found |})
  end.

End Handlers.

(** One value of the [results] dictionary of [batch_check_emails]. *)
Record batch_entry : Type := {
  entry_success : bool;
  entry_error : option string;
  entry_platforms_found : list pyval;
  entry_count : nat
}.

(** The entry that [batch_check_emails] records for a failed address. *)
Definition failed_entry (message : string) : batch_entry :=
  {| entry_success := false; entry_error := Some message;
     entry_platforms_found := []; entry_count := 0 |}.

Record batch_response : Type := {
  batch_success : bool;
  total_emails : nat;
  batch_results : gmap string batch_entry;
  batch_checked_at : string
}.

(** The loop of [batch_check_emails]; [schedules i] is the schedule of the
    [i]-th run of the engine. [except Exception] records the failure of one
    address and goes on. *)
Fixpoint batch_loop (installed : option (list (string * pymodule)))
    (schedules : nat → list nat) (i : nat) (emails : list string)
    (results : gmap string batch_entry) : result (gmap string batch_entry) :=
  match emails with
  | [] => Ok results
  | email :: rest =>
      match check_email_on_platforms installed (schedules i) email true 15 with
      | Ok raw_results =>
          let platforms_found := domains_found raw_results in
          batch_loop installed schedules (S i) rest
            (<[email := {| entry_success := true; entry_error := None;
                           entry_platforms_found := platforms_found;
                           entry_count := length platforms_found |}]> results)
      | Raise e =>
          if exc_is_exception e then
            batch_loop installed schedules (S i) rest
              (<[email := {| entry_success := false; entry_error := Some (exc_msg e);
                             entry_platforms_found := [];
                             entry_count := 0 |}]> results)
          else Raise e
      end
  end.

(** The handler of [POST /api/batch-check]; [emails] are the addresses
    [EmailStr] has returned. *)
Definition batch_check_emails (installed : option (list (string * pymodule)))
    (schedules : nat → list nat) (now : string) (emails : list string)
  : http batch_response :=
  if 5 <? length emails then HTTPException 400 "Maximum 5 emails per batch request"
  else
    match batch_loop installed schedules 0 emails ∅ with
    | Ok results =>
        Respond {| batch_success := true;
                   total_emails := length emails;
                   batch_results := results;
                   batch_checked_at := now |}
    | Raise e => Unhandled e
    end.

(** [POST /api/batch-check] as served: every address of the body is
    validated as [EmailStr]; one refused address refuses the request. *)
Definition post_batch_check `{ES : EmailStr} (installed : option (list (string * pymodule)))
    (schedules : nat → list nat) (now : string) (emails : list string)
  : answer batch_response :=
  match mapM validate_email emails with
  | None => Unprocessable
  | Some validated => Handled (batch_check_emails installed schedules now validated)
  end.

Record platforms_response : Type := {
  platforms_success : bool;
  total_platforms : nat;
  platforms : list string
}.

(** The domain [get_supported_platforms] lists for a recovered name. *)
Definition listed_domain (name_ : string) : string := default name_ (DOMAIN_MAP !! name_).

(** The loop of [get_supported_platforms]. *)
Fixpoint platform_loop (websites : list probe) (platform_names : list string)
  : result (list string) :=
  match websites with
  | [] => Ok platform_names
  | website :: rest =>
      name ← probe_name (probe_str website);
      let domain := default name (DOMAIN_MAP !! name) in
      if bool_decide (domain ∈ platform_names)
      then platform_loop rest platform_names
      else platform_loop rest (platform_names ++ [domain])
  end.

(** [GET /api/supported-platforms] *)
Definition get_supported_platforms (installed : option (list (string * pymodule)))
  : http platforms_response :=
  match
    modules ← import_holehe_modules installed;
    platform_names ← platform_loop (get_check_functions modules true) [];
    sorted ← list_sort VStr platform_names;
    Ok {| platforms_success := true;
          total_platforms := length platform_names;
          platforms := sorted |}
  with
  | Ok response => Respond response
  | Raise e =>
      if exc_is_exception e
      then HTTPException 500 ("Error loading platforms: " +:+ exc_msg e)
      else Unhandled e
  end.

End Api.

(** ** Python floats *)

Module PyFloat.
Import Py.

(** A Python [float] is an IEEE 754 binary64 number: 53 bits of precision,
    exponents below 1024. *)
Definition prec : Z := 53.
Definition emax : Z := 1024.

Definition ZeroDivisionError (msg : string) : pyexc := PyExc "ZeroDivisionError" true msg.
Definition OverflowError (msg : string) : pyexc := PyExc "OverflowError" true msg.

(** [float(n)] for an [int] [n], rounded to nearest even. *)
Definition of_int (n : Z) : spec_float := binary_normalize prec emax n 0 false.

(** An [int] as an unrounded mantissa with exponent 0. *)
Definition exact (n : Z) : spec_float :=
  match n with
  | Z0 => S754_zero false
  | Zpos p => S754_finite false p 0
  | Zneg p => S754_finite true p 0
  end.

(** [x / y] for two [int]s: the quotient of the integers themselves,
    rounded once. *)
Definition int_truediv (x y : Z) : result spec_float :=
  if (y =? 0)%Z then Raise (ZeroDivisionError "division by zero")
  else
    match SFdiv prec emax (exact x) (exact y) with
    | S754_infinity _ =>
        Raise (OverflowError "integer division result too large for a float")
    | q => Ok q
    end.

(** [f * n] for a [float] [f] and an [int] [n]. *)
Definition mul_int (f : spec_float) (n : Z) : spec_float := SFmul prec emax f (of_int n).

(** [int(f)]: truncation towards zero. *)
Definition int_of_float (f : spec_float) : result Z :=
  match f with
  | S754_zero _ => Ok 0%Z
  | S754_finite s m e =>
      let magnitude :=
        if (0 <=? e)%Z then Z.shiftl (Zpos m) e else Z.shiftr (Zpos m) (- e) in
      Ok (if s then (- magnitude)%Z else magnitude)
  | S754_infinity _ => Raise (OverflowError "cannot convert float infinity to integer")
  | S754_nan => Raise (ValueError "cannot convert float NaN to integer")
  end.

Definition isnan (f : spec_float) : bool :=
  match f with
  | S754_nan => true
  | _ => false
  end.

Definition isinf (f : spec_float) : bool :=
  match f with
  | S754_infinity _ => true
  | _ => false
  end.

End PyFloat.

(** ** The heat map ([heatmap/] and the [/search] endpoint) *)

Module Heatmap.
Import Py PyFloat Api.

(** An item of the list [get_country_search_density] builds:
    [{"country": name, "score": n}]. *)
Record scored : Type := { country : string; score : Z }.

(** [{**item, value_key: v}] *)
Definition with_score (item : scored) (v : Z) : scored :=
  {| country := country item; score := v |}.

(** [min(values)] and [max(values)] of a list that starts with [first]. *)
Definition minimum (first : Z) (rest : list Z) : Z := foldl Z.min first rest.
Definition maximum (first : Z) (rest : list Z) : Z := foldl Z.max first rest.

(** [int((v - minimum_value) / (maximum_value - minimum_value) * 100)] *)
Definition normalized_value (v minimum_value maximum_value : Z) : result Z :=
  q ← int_truediv (v - minimum_value) (maximum_value - minimum_value);
  int_of_float (mul_int q 100).

(** The loop of [normalize_scores]. *)
Fixpoint normalize_loop (minimum_value maximum_value : Z) (data normalized : list scored)
  : result (list scored) :=
  match data with
  | [] => Ok normalized
  | item :: rest =>
      v ← normalized_value (score item) minimum_value maximum_value;
      normalize_loop minimum_value maximum_value rest (normalized ++ [with_score item v])
  end.

Definition normalize_scores (data : list scored) : result (list scored) :=
  match score <$> data with
  | [] => Ok data
  | first :: rest =>
      let minimum_value := minimum first rest in
      let maximum_value := maximum first rest in
      if (minimum_value =? maximum_value)%Z
      then Ok ((fun item => with_score item 100) <$> data)
      else normalize_loop minimum_value maximum_value data []
  end.

(** [get_country_search_density]: [randint i] is the [i]-th value that
    [random.randint(0, 100)] returns after [random.seed(keyword)]. *)
Definition get_country_search_density (COUNTRY_NAMES : list string) (randint : nat → Z)
  : result (list scored) :=
  normalize_scores
    (imap (fun i name_ => {| country := name_; score := randint i |}) COUNTRY_NAMES).

Record search_response : Type := {
  search_keyword_ : string;
  search_results : list scored
}.

(** [GET /search] *)
Definition search_keyword (COUNTRY_NAMES : list string) (random : string → nat → Z)
    (keyword : string) : http search_response :=
  if String.eqb keyword "" then HTTPException 400 "Keyword is required"
  else
    match get_country_search_density COUNTRY_NAMES (random keyword) with
    | Ok result => Respond {| search_keyword_ := keyword; search_results := result |}
    | Raise e => Unhandled e
    end.

(** [normalize_scores] turned [item] into [o]. *)
Definition normalized_to (lo hi : Z) (item o : scored) : Prop :=
  country o = country item ∧ normalized_value (score item) lo hi = Ok (score o).

(** The value [normalize_scores] would give without rounding:
    the floor of [100 (v - lo) / (hi - lo)]. *)
Definition exact_value (v lo hi : Z) : Z := (100 * (v - lo) / (hi - lo))%Z.

(** What the checks below establish for one pair [x = v - lo], [y = hi - lo]. *)
Definition value_ok (x y : Z) : bool :=
  match normalized_value x 0 y with
  | Ok r =>
      (0 <=? r)%Z && (r <=? 100)%Z &&
      (r <=? exact_value x 0 y)%Z && (exact_value x 0 y - 1 <=? r)%Z &&
      implb (x =? 0)%Z (r =? 0)%Z && implb (x =? y)%Z (r =? 100)%Z
  | Raise _ => false
  end.

Definition step_ok (x y : Z) : bool :=
  match normalized_value x 0 y, normalized_value (x + 1) 0 y with
  | Ok r, Ok r' => (r <=? r')%Z
  | _, _ => false
  end.

End Heatmap.

(** ** [_json_safe] of the TikTok wrapper *)

Module TikSpyder.
Import PyFloat.

(** The JSON-like values the rows read from the CSV files are made of. *)
#[warnings="-register-all"] Inductive pyobj : Type :=
| PNone
| PBool (b : bool)
| PInt (n : Z)
| PFloat (f : spec_float)
| PStr (s : string)
| PList (items : list pyobj)
| PDict (items : list (string * pyobj)).

Fixpoint _json_safe (obj : pyobj) : pyobj :=
  match obj with
  | PFloat f => if isnan f || isinf f then PNone else obj
  | PDict items => PDict (map (fun '(k, v) => (k, _json_safe v)) items)
  | PList items => PList (map _json_safe items)
  | _ => obj
  end.

(** No NaN and no infinity anywhere in the value. *)
Fixpoint json_clean (obj : pyobj) : bool :=
  match obj with
  | PFloat f => negb (isnan f || isinf f)
  | PDict items => forallb (fun '(_, v) => json_clean v) items
  | PList items => forallb json_clean items
  | _ => true
  end.

End TikSpyder.

(** * Facts *)

(** ** Ordering of keys and the sort *)

Section OrderFacts.
Import Py PySort.

Lemma string_ltb_lt s t : String.ltb s t = true ↔ String_as_OT.lt s t.
Proof.
  unfold String.ltb. rewrite <- String_as_OT.cmp_lt. unfold String_as_OT.cmp.
  destruct (String.compare s t); split; congruence.
Qed.

Lemma string_ltb_trans_neg s t u :
  String.ltb t s = false → String.ltb u t = false → String.ltb u s = false.
Proof.
  intros Hts Hut. destruct (String.ltb u s) eqn:Hus; [|done].
  apply string_ltb_lt in Hus.
  destruct (String.compare t s) eqn:Hc.
  - apply String_as_OT.cmp_eq in Hc. subst t.
    apply string_ltb_lt in Hus. congruence.
  - unfold String.ltb in Hts. rewrite Hc in Hts. done.
  - assert (String_as_OT.lt s t) as Hst.
    { apply String_as_OT.cmp_lt. unfold String_as_OT.cmp.
      rewrite String.compare_antisym, Hc. done. }
    pose proof (String_as_OT.lt_trans _ _ _ Hus Hst) as Hlt.
    apply string_ltb_lt in Hlt. congruence.
Qed.

Lemma string_ltb_asym s t : String.ltb s t = true → String.ltb t s = false.
Proof.
  unfold String.ltb. rewrite (String.compare_antisym t s).
  destruct (String.compare s t); simpl; congruence.
Qed.

Lemma string_ltb_antisym s t :
  String.ltb s t = false → String.ltb t s = false → s = t.
Proof.
  unfold String.ltb. rewrite (String.compare_antisym t s).
  destruct (String.compare s t) eqn:Hc; simpl; try congruence.
  intros _ _. by apply String.compare_eq_iff.
Qed.

Lemma py_lt_Ok a b r :
  py_lt a b = Ok r →
  (∃ s t, a = VStr s ∧ b = VStr t ∧ r = String.ltb s t) ∨
  (∃ x y, as_number a = Some x ∧ as_number b = Some y ∧ r = (x <? y)%Z).
Proof.
  destruct a, b; simpl; try discriminate; intros [= <-]; eauto 10.
Qed.

Lemma py_lt_num a b x y :
  as_number a = Some x → as_number b = Some y → py_lt a b = Ok (x <? y)%Z.
Proof.
  destruct a, b; simpl; try discriminate; intros [= <-] [= <-]; done.
Qed.

Lemma py_le_trans x y z : py_le x y → py_le y z → py_le x z.
Proof.
  unfold py_le. intros H1 H2.
  apply py_lt_Ok in H1 as [(s & t & -> & -> & H1)|(a & b & Ha & Hb & H1)];
    apply py_lt_Ok in H2 as [(u & v & -> & Hv & H2)|(c & d & Hc & Hd & H2)];
    simplify_eq/=.
  - f_equal. eauto using string_ltb_trans_neg.
  - rewrite (py_lt_num _ _ _ _ Hc Hb). f_equal. lia.
Qed.

Lemma py_lt_asym x y : py_lt x y = Ok true → py_le x y.
Proof.
  unfold py_le. intros H.
  apply py_lt_Ok in H as [(s & t & -> & -> & H)|(a & b & Ha & Hb & H)]; simpl.
  - f_equal. by apply string_ltb_asym.
  - rewrite (py_lt_num _ _ _ _ Hb Ha). f_equal. lia.
Qed.

Section SortFacts.
Context {A : Type} (key : A → pyval).

#[local] Instance key_le_transitive : Transitive (key_le key).
Proof. intros a b c. apply py_le_trans. Qed.

Lemma insort_perm x l l' : insort key x l = Ok l' → x :: l ≡ₚ l'.
Proof.
  revert l'. induction l as [|y l IH]; intros l'; simpl.
  - intros [= <-]. done.
  - destruct (py_lt (key x) (key y)) as [[]|]; simpl; try discriminate.
    + intros [= <-]. done.
    + destruct (insort key x l) as [r|]; simpl; try discriminate.
      intros [= <-]. rewrite <- (IH r eq_refl). apply perm_swap.
Qed.

Lemma insort_hd x l l' a :
  insort key x l = Ok l' → key_le key a x →
  HdRel (key_le key) a l → HdRel (key_le key) a l'.
Proof.
  destruct l as [|y l]; simpl.
  - intros [= <-] ? _. by constructor.
  - destruct (py_lt (key x) (key y)) as [[]|]; simpl; try discriminate.
    + intros [= <-] ? _. by constructor.
    + destruct (insort key x l) as [r|]; simpl; try discriminate.
      intros [= <-] _ H. inversion H; subst. by constructor.
Qed.

Lemma insort_sorted x l l' :
  insort key x l = Ok l' → Sorted (key_le key) l → Sorted (key_le key) l'.
Proof.
  revert l'. induction l as [|y l IH]; intros l'; simpl.
  - intros [= <-] _. repeat constructor.
  - destruct (py_lt (key x) (key y)) as [[]|] eqn:Hlt; simpl; try discriminate.
    + intros [= <-] Hs. constructor; [done|]. constructor. by apply py_lt_asym.
    + destruct (insort key x l) as [r|] eqn:Hr; simpl; try discriminate.
      intros [= <-] Hs. inversion Hs; subst. constructor; [by apply IH|].
      eapply insort_hd; eauto.
Qed.

Lemma list_sort_raise e l :
  foldl (λ acc x, sorted ← acc; insort key x sorted) (Raise e) l = Raise e.
Proof. induction l; simpl; auto. Qed.

Lemma list_sort_from acc l r :
  foldl (λ acc x, sorted ← acc; insort key x sorted) (Ok acc) l = Ok r →
  Sorted (key_le key) acc → acc ++ l ≡ₚ r ∧ Sorted (key_le key) r.
Proof.
  revert acc. induction l as [|x l IH]; intros acc; simpl.
  - intros [= <-] ?. by rewrite app_nil_r.
  - destruct (insort key x acc) as [acc'|e] eqn:Hins; simpl.
    + intros Hr Hs. destruct (IH acc' Hr) as [Hp Hs'].
      { eapply insort_sorted; eauto. }
      split; [|done]. rewrite <- Hp, <- (insort_perm _ _ _ Hins).
      simpl. symmetry. apply Permutation_middle.
    + by rewrite list_sort_raise.
Qed.

Lemma list_sort_spec l r :
  list_sort key l = Ok r → l ≡ₚ r ∧ ascending key r.
Proof.
  intros H. destruct (list_sort_from [] l r H) as [Hp Hs]; [constructor|].
  split; [exact Hp|]. apply (Sorted_StronglySorted (key_le key)). exact Hs.
Qed.

(** Keys that are all strings can always be ordered. *)
Lemma str_keyed_inv x : str_keyed key x → ∃ s, key x = VStr s.
Proof. unfold str_keyed. destruct (key x); try discriminate; eauto. Qed.

Lemma insort_total x l :
  str_keyed key x → Forall (str_keyed key) l → ∃ l', insort key x l = Ok l'.
Proof.
  intros [s Hs]%str_keyed_inv.
  induction 1 as [|y l [t Ht]%str_keyed_inv _ [r IH]]; simpl; [eauto|].
  rewrite Hs, Ht. simpl. destruct (String.ltb s t); simpl; [eauto|].
  rewrite IH. simpl. eauto.
Qed.

Lemma list_sort_total l : Forall (str_keyed key) l → ∃ r, list_sort key l = Ok r.
Proof.
  unfold list_sort. assert (Forall (str_keyed key) []) as Hacc by constructor.
  revert Hacc. generalize (@nil A) as acc.
  induction l as [|x l IH]; intros acc Hacc Hl; simpl; [eauto|].
  inversion Hl; subst.
  destruct (insort_total x acc) as [acc' Hins]; [done..|].
  rewrite Hins. simpl. apply IH; [|done].
  apply insort_perm in Hins. by rewrite <- Hins; constructor.
Qed.

(** Arrival order does not matter once equal keys mean equal elements. *)
Lemma list_sort_arrival l1 l2 :
  Forall (str_keyed key) l1 →
  (∀ a b, a ∈ l1 → b ∈ l1 → key a = key b → a = b) →
  l1 ≡ₚ l2 →
  list_sort key l1 = list_sort key l2.
Proof.
  intros Hstr Huniq Hp.
  destruct (list_sort_total l1 Hstr) as [r1 H1].
  destruct (list_sort_total l2) as [r2 H2]; [by rewrite <- Hp|].
  rewrite H1, H2. f_equal.
  destruct (list_sort_spec _ _ H1) as [Hp1 Hs1], (list_sort_spec _ _ H2) as [Hp2 Hs2].
  apply (StronglySorted_unique_strong (key_le key)); [|done..|by rewrite <- Hp1, <- Hp2].
  intros a b Ha Hb Hab Hba. rewrite <- Hp1 in Ha. rewrite <- Hp2, <- Hp in Hb.
  apply Huniq; [done..|].
  rewrite Forall_forall in Hstr.
  destruct (str_keyed_inv _ (Hstr a Ha)) as [s Hs].
  destruct (str_keyed_inv _ (Hstr b Hb)) as [t Ht].
  unfold key_le, py_le in Hab, Hba. rewrite Hs, Ht in *. simpl in *.
  f_equal. apply string_ltb_antisym; congruence.
Qed.

End SortFacts.

End OrderFacts.

(** ** The e-mail path *)

Section EmailFacts.
Import Py PySort Backend.

(** Whatever the schedule, the shared list holds what the tasks appended. *)
Lemma collect_perm schedule (pending : list (list outcome)) :
  collect schedule pending ≡ₚ concat pending.
Proof.
  revert pending. induction schedule as [|i schedule IH]; intros pending; simpl; [done|].
  destruct (pending !! i) as [[|o rest]|] eqn:Hi; [apply IH| |apply IH].
  rewrite IH.
  rewrite <- (take_drop_middle pending i (o :: rest) Hi) at 2.
  rewrite insert_take_drop by (by eapply lookup_lt_Some).
  rewrite !concat_app. simpl. by rewrite Permutation_middle.
Qed.

Lemma PlatformInfo_new_Ok p n e er ph a info :
  PlatformInfo_new p n e er ph a = Ok info →
  VStr (platform info) = p ∧ VStr (name info) = n ∧ exists_ info = e.
Proof.
  unfold PlatformInfo_new.
  destruct p, n; simpl; try discriminate.
  destruct (as_optional_str "email_recovery" er); simpl; try discriminate.
  destruct (as_optional_str "phone_number" ph); simpl; try discriminate.
  destruct (as_optional_dict "additional_info" a); simpl; try discriminate.
  intros [= <-]. done.
Qed.

Lemma PlatformInfo_new_total p n e er ph a :
  is_str p = true → is_str n = true → is_optional_str er = true →
  is_optional_str ph = true → is_optional_dict a = true →
  ∃ info, PlatformInfo_new p n e er ph a = Ok info.
Proof.
  unfold PlatformInfo_new.
  destruct p, n, er, ph, a; simpl; try discriminate; eauto.
Qed.

Lemma format_loop_spec only_found raw pf det pf' det' :
  format_loop only_found raw pf det = Ok (pf', det') →
  ∃ infos,
    Forall2 info_of (filter (kept only_found) raw) infos ∧
    det' = det ++ infos ∧
    pf' = pf ++ (platform <$> filter (λ i, exists_ i = true) infos).
Proof.
  revert pf det. induction raw as [|r raw IH]; intros pf det; simpl.
  - intros [= <- <-]. exists []. by rewrite !app_nil_r.
  - fold (is_found r). destruct (is_found r) eqn:Hf.
    + destruct (PlatformInfo_new _ _ _ _ _ _) as [info|] eqn:Hinfo; simpl; [|done].
      intros (infos & H2 & -> & ->)%IH.
      apply PlatformInfo_new_Ok in Hinfo as (Hp & Hn & He).
      exists (info :: infos). rewrite filter_cons_True by (right; exact Hf).
      split; [constructor; [by unfold info_of; rewrite Hf|done]|].
      rewrite filter_cons_True by done. by rewrite <- !app_assoc.
    + destruct only_found; simpl.
      * intros (infos & H2 & -> & ->)%IH. exists infos.
        rewrite filter_cons_False; [done|]. unfold kept. fold (is_found r). intros [|]; congruence.
      * destruct (PlatformInfo_new _ _ _ _ _ _) as [info|] eqn:Hinfo; simpl; [|done].
        intros (infos & H2 & -> & ->)%IH.
        apply PlatformInfo_new_Ok in Hinfo as (Hp & Hn & He).
        exists (info :: infos). rewrite filter_cons_True by (by left).
        split; [constructor; [by unfold info_of; rewrite Hf|done]|].
        rewrite filter_cons_False by congruence. by rewrite <- !app_assoc.
Qed.

Lemma format_loop_total only_found raw pf det :
  Forall (λ r, well_shaped r = true) raw →
  ∃ acc, format_loop only_found raw pf det = Ok acc.
Proof.
  intros H. revert pf det.
  induction H as [|r raw Hr _ IH]; intros pf det; simpl; [eauto|].
  unfold well_shaped in Hr. rewrite !andb_true_iff in Hr.
  destruct Hr as ((((Hd & Hn) & He) & Hp) & Ho).
  destruct (truthy (get r "exists")).
  - destruct (PlatformInfo_new_total _ _ true _ _ _ Hd Hn He Hp Ho) as [info ->].
    simpl. apply IH.
  - destruct only_found; simpl; [apply IH|].
    destruct (PlatformInfo_new_total _ _ false VNone VNone VNone Hd Hn) as [info ->];
      [done..|].
    simpl. apply IH.
Qed.

Lemma format_results_Ok now raw email_ only_found resp :
  format_results now raw email_ only_found = Ok resp →
  ∃ infos,
    Forall2 info_of (filter (kept only_found) raw) infos ∧
    resp = {| success := true; email := email_; total_checked := length raw;
              found_count := length (filter (λ i, exists_ i = true) infos);
              platforms_found := platform <$> filter (λ i, exists_ i = true) infos;
              detailed_results := if only_found then None else Some infos;
              checked_at := now |}.
Proof.
  unfold format_results.
  destruct (format_loop only_found raw [] []) as [[pf det]|] eqn:Hloop; simpl; [|done].
  apply format_loop_spec in Hloop as (infos & H2 & -> & ->). simpl.
  intros [= <-]. exists infos. split; [done|].
  rewrite length_fmap. by destruct only_found.
Qed.

Lemma format_results_total now raw email_ only_found :
  Forall (λ r, well_shaped r = true) raw →
  ∃ resp, format_results now raw email_ only_found = Ok resp.
Proof.
  intros H. unfold format_results.
  destruct (format_loop_total only_found raw [] [] H) as [acc ->]. simpl. eauto.
Qed.

Lemma filter_kept_all (raw : list outcome) : filter (kept false) raw = raw.
Proof.
  induction raw as [|r raw IH]; [done|].
  rewrite filter_cons_True by (by left). by rewrite IH.
Qed.

Lemma filter_kept_found (raw : list outcome) :
  filter (kept true) raw = filter (λ r, is_found r = true) raw.
Proof.
  apply list_filter_iff. intros r. unfold kept. split; [intros [|]; done|by right].
Qed.

Lemma filter_exists_split (infos : list PlatformInfo) :
  length infos =
  length (filter (λ i, exists_ i = true) infos) +
  length (filter (λ i, exists_ i = false) infos).
Proof.
  induction infos as [|i infos IH]; [done|].
  destruct (exists_ i) eqn:He.
  - rewrite filter_cons_True, (filter_cons_False (λ i, exists_ i = false)) by congruence.
    simpl. lia.
  - rewrite filter_cons_False, (filter_cons_True (λ i, exists_ i = false)) by congruence.
    simpl. lia.
Qed.

Lemma info_of_all_found (raw : list outcome) infos :
  Forall2 info_of (filter (λ r, is_found r = true) raw) infos →
  Forall (λ i, exists_ i = true) infos.
Proof.
  intros H.
  assert (Forall (λ r, is_found r = true) (filter (λ r, is_found r = true) raw)) as Hall.
  { apply list.Forall_forall. by intros r [? _]%list_elem_of_filter. }
  induction H as [|r i l infos (He & _) _ IH]; [constructor|].
  inversion Hall; subst. constructor; [congruence|by apply IH].
Qed.

Lemma first_raised_None (tasks : list (list outcome * option pyexc)) :
  Forall (λ t, t.2 = None) tasks → first_raised tasks = None.
Proof.
  unfold first_raised. induction 1 as [|[out o] tasks Ho _ IH]; [done|].
  simpl in Ho. subst o. simpl. exact IH.
Qed.

Lemma check_email_trio_contained modules schedule email_ excl timeout :
  is_valid_email email_ = true →
  Forall (contained email_ (AsyncClient timeout)) (get_check_functions modules excl) →
  check_email_trio (Some modules) schedule email_ excl timeout =
  ([EvValidate email_; EvImport] ++
     ((λ w, EvLaunch (probe_str w)) <$> get_check_functions modules excl),
   list_sort sort_key
     (collect schedule
        (contribution email_ (AsyncClient timeout) <$> get_check_functions modules excl))).
Proof.
  intros Hv Hc. unfold check_email_trio. rewrite Hv. simpl.
  rewrite first_raised_None.
  - by rewrite <- list_fmap_compose.
  - apply Forall_fmap. apply (Forall_impl _ _ _ Hc). done.
Qed.

Lemma launch_raises_cleanly module email_ c :
  raises_cleanly module email_ c = true →
  ∃ name_,
    probe_name (probe_str module) = Ok name_ ∧
    launch_module_check module email_ c =
    ([errored_outcome name_ (default "unknown" (DOMAIN_MAP !! name_))], None).
Proof.
  unfold raises_cleanly, launch_module_check.
  destruct (probe_call module email_ c) as [[|o out] [e|]]; try discriminate.
  destruct (exc_is_exception e); [|discriminate].
  destruct (probe_name (probe_str module)) as [n|]; [|discriminate].
  eauto.
Qed.

Lemma launch_reports_once module email_ c :
  reports_once module email_ c = true →
  ∃ o, probe_call module email_ c = ([o], None) ∧
       launch_module_check module email_ c = ([o], None) ∧
       str_keyed sort_key o.
Proof.
  unfold reports_once, launch_module_check.
  destruct (probe_call module email_ c) as [[|o [|o' out]] [e|]]; try discriminate.
  eauto.
Qed.


Lemma errored_outcome_shape n d :
  is_errored (errored_outcome n d) = true ∧
  is_found (errored_outcome n d) = false ∧
  well_shaped (errored_outcome n d) = true ∧
  str_keyed sort_key (errored_outcome n d).
Proof. done. Qed.

(** A batch of probes that each leave exactly one string-named outcome. *)
Lemma batch_one_each modules schedule email_ excl timeout :
  is_valid_email email_ = true →
  Forall (λ w, raises_cleanly w email_ (AsyncClient timeout) = true ∨
               reports_once w email_ (AsyncClient timeout) = true)
         (get_check_functions modules excl) →
  ∃ results,
    check_email_trio (Some modules) schedule email_ excl timeout =
      ([EvValidate email_; EvImport] ++
         ((λ w, EvLaunch (probe_str w)) <$> get_check_functions modules excl),
       Ok results) ∧
    results ≡ₚ concat (contribution email_ (AsyncClient timeout) <$>
                         get_check_functions modules excl) ∧
    length results = length (get_check_functions modules excl) ∧
    ascending sort_key results.
Proof.
  intros Hv Hw. set (ws := get_check_functions modules excl) in *.
  set (c := AsyncClient timeout) in *.
  assert (Forall (λ w, contained email_ c w ∧ length (contribution email_ c w) = 1 ∧
                       Forall (str_keyed sort_key) (contribution email_ c w)) ws) as Hall.
  { apply (Forall_impl _ _ _ Hw). intros w [H|H]; unfold contained, contribution.
    - apply launch_raises_cleanly in H as (n & _ & ->). cbn [fst snd].
      repeat split. repeat constructor.
    - apply launch_reports_once in H as (o & _ & -> & Hs). cbn [fst snd].
      repeat split. by repeat constructor. }
  rewrite check_email_trio_contained;
    [|done|by apply (Forall_impl _ _ _ Hall); intros ? (? & _)].
  fold ws c.
  destruct (list_sort_total sort_key (collect schedule (contribution email_ c <$> ws)))
    as [results Hr].
  { rewrite collect_perm. apply Forall_concat, Forall_fmap.
    apply (Forall_impl _ _ _ Hall). by intros ? (_ & _ & ?). }
  exists results. rewrite Hr. split; [done|].
  apply list_sort_spec in Hr as [Hp Hs]. rewrite collect_perm in Hp.
  split; [done|]. split; [|done].
  rewrite <- Hp. clear -Hall.
  induction Hall as [|w ws (_ & Hl & _) _ IH]; [done|].
  rewrite fmap_cons. cbn [concat]. rewrite length_app, Hl. cbn [length Nat.add]. f_equal. exact IH.
Qed.

(** The domains listed in [platforms_found] are those of the raw results
    whose ["exists"] field is truthy, in order. *)
Lemma found_platforms (l : list outcome) infos :
  Forall2 info_of l infos →
  VStr <$> (platform <$> filter (λ i, exists_ i = true) infos) =
  (λ r, get_or r "domain" (VStr "unknown")) <$> filter (λ r, is_found r = true) l.
Proof.
  induction 1 as [|r i l infos (He & Hp & _) _ IH]; [done|].
  destruct (is_found r) eqn:Hf.
  - rewrite !filter_cons_True by congruence. rewrite !fmap_cons, IH. by f_equal.
  - rewrite !filter_cons_False by congruence. exact IH.
Qed.

Lemma filter_found_kept only_found (raw : list outcome) :
  filter (λ r, is_found r = true) (filter (kept only_found) raw) =
  filter (λ r, is_found r = true) raw.
Proof.
  rewrite list_filter_filter. apply list_filter_iff. intros r. unfold kept.
  fold (is_found r). split; [by intros [? _]|]. intros ?. split; [done|by right].
Qed.

Lemma elem_of_concat_fmap {A B} (f : A → list B) (l : list A) x y :
  x ∈ l → y ∈ f x → y ∈ concat (f <$> l).
Proof.
  induction 1 as [x l|x x' l _ IH]; intros Hy; rewrite fmap_cons; cbn [concat];
    apply elem_of_app; [by left|right; by apply IH].
Qed.


(** Probes that each leave one outcome are matched, one to one and in
    start order, by what the shared list receives. *)
Lemma one_each_leaves email_ c ws :
  Forall (λ w, raises_cleanly w email_ c = true ∨ reports_once w email_ c = true) ws →
  Forall2 (leaves email_ c) ws (concat (contribution email_ c <$> ws)).
Proof.
  induction 1 as [|w ws Hw _ IH]; [constructor|].
  rewrite fmap_cons. cbn [concat]. unfold contribution at 1.
  destruct Hw as [Hw|Hw].
  - destruct (launch_raises_cleanly _ _ _ Hw) as (n & Hn & ->). cbn [fst app].
    constructor; [|exact IH]. left. eauto.
  - destruct (launch_reports_once _ _ _ Hw) as (o & Ho & -> & _). cbn [fst app].
    constructor; [|exact IH]. by right.
Qed.

Lemma NoDup_fmap_eq {A B} (f : A → B) (l : list A) a b :
  NoDup (f <$> l) → a ∈ l → b ∈ l → f a = f b → a = b.
Proof.
  induction l as [|x l IH]; [by intros _ ?%elem_of_nil|].
  rewrite fmap_cons, NoDup_cons. intros [Hx Hl].
  intros [->|Ha]%elem_of_cons [->|Hb]%elem_of_cons Heq; [done| | |by apply IH].
  - destruct Hx. rewrite Heq. by apply list_elem_of_fmap_2.
  - destruct Hx. rewrite <- Heq. by apply list_elem_of_fmap_2.
Qed.

Lemma check_email_trio_sorted installed schedule email_ excl timeout results :
  (check_email_trio installed schedule email_ excl timeout).2 = Ok results →
  ascending sort_key results.
Proof.
  unfold check_email_trio.
  destruct (is_valid_email email_); cbn [negb snd]; [|done].
  destruct installed as [modules|]; cbn [import_holehe_modules snd]; [|done].
  cbv zeta. destruct (first_raised _); cbn [snd]; [done|].
  by intros [_ ?]%list_sort_spec.
Qed.

Lemma check_email_trio_arrival modules email_ excl timeout s1 s2 :
  Forall (str_keyed sort_key)
    (concat (contribution email_ (AsyncClient timeout) <$> get_check_functions modules excl)) →
  NoDup (name_str <$>
    concat (contribution email_ (AsyncClient timeout) <$> get_check_functions modules excl)) →
  check_email_trio (Some modules) s1 email_ excl timeout =
  check_email_trio (Some modules) s2 email_ excl timeout.
Proof.
  intros Hstr Hnodup. unfold check_email_trio.
  destruct (is_valid_email email_); cbn [negb]; [|done].
  cbn [import_holehe_modules]. cbv zeta.
  destruct (first_raised _); [done|]. f_equal.
  rewrite <- !list_fmap_compose.
  change (fst ∘ _) with (contribution email_ (AsyncClient timeout)).
  set (pending := contribution email_ (AsyncClient timeout) <$> _) in *.
  apply list_sort_arrival.
  - by rewrite collect_perm.
  - intros a b Ha Hb Hkey. rewrite collect_perm in Ha, Hb.
    apply (NoDup_fmap_eq name_str (concat pending)); [done..|].
    unfold name_str. by rewrite Hkey.
  - by rewrite !collect_perm.
Qed.

End EmailFacts.

(** ** Names of plain functions *)

Section NameFacts.
Import Py Backend.

Lemma append_cons c s t : String c s +:+ t = String c (s +:+ t).
Proof. reflexivity. Qed.

Lemma append_nil_l s : "" +:+ s = s.
Proof. reflexivity. Qed.

Lemma append_nil_r s : s +:+ "" = s.
Proof. induction s as [|c s IH]; [done|]. by rewrite append_cons, IH. Qed.

Lemma append_assoc s t u : (s +:+ t) +:+ u = s +:+ (t +:+ u).
Proof. induction s as [|c s IH]; [done|]. by rewrite !append_cons, IH. Qed.

Lemma prefix_append sep s : String.prefix sep (sep +:+ s) = true.
Proof.
  induction sep as [|c sep IH]; [by destruct s|].
  rewrite append_cons. cbn [String.prefix]. by destruct (ascii_dec c c).
Qed.

Lemma split_go_skip sep t s cur :
  split_go sep (String.length t) cur (t +:+ s) = split_go sep 0 cur s.
Proof. induction t as [|c t IH]; [done|]. rewrite append_cons. exact IH. Qed.

(** A text that starts with the separator. *)
Lemma split_go_sep c sep s cur :
  split_go (String c sep) 0 cur (String c sep +:+ s) =
  cur :: split_go (String c sep) 0 "" s.
Proof.
  rewrite append_cons. cbn [split_go]. rewrite <- append_cons, prefix_append.
  cbn [String.length]. rewrite Nat.sub_1_r. cbn [Nat.pred].
  f_equal. change (S (String.length sep)) with (String.length (String c sep)).
  apply (split_go_skip (String c sep) sep).
Qed.

(** The first piece of a split starts with what has been read so far. *)
Lemma split_go_head sep s skip cur :
  ∃ p more, split_go sep skip cur s = (cur +:+ p) :: more.
Proof.
  revert skip cur. induction s as [|c s IH]; intros skip cur; cbn [split_go].
  - exists "", []. by rewrite append_nil_r.
  - destruct skip as [|k]; [|apply IH].
    destruct (String.prefix sep (String c s)).
    + exists "". eexists. by rewrite append_nil_r.
    + destruct (IH 0 (cur +:+ String c "")) as (p & more & ->).
      exists (String c p), more. by rewrite append_assoc.
Qed.

(** No separator starts inside a name without ["<"]. *)
Lemma split_function_name n rest cur :
  plain_name n = true →
  ∃ p more,
    split_go "<function " 0 cur (n +:+ String " " rest) =
    (cur +:+ n +:+ String " " p) :: more.
Proof.
  revert cur. induction n as [|c n IH]; intros cur Hn.
  - rewrite append_nil_l. cbn [split_go String.prefix].
    destruct (split_go_head "<function " rest 0 (cur +:+ " ")) as (p & more & ->).
    exists p, more. by rewrite append_nil_l, append_assoc.
  - cbn [plain_name] in Hn. apply andb_true_iff in Hn as [Hc Hn].
    apply andb_true_iff in Hc as [_ Hc]. apply negb_true_iff in Hc.
    rewrite append_cons. cbn [split_go String.prefix].
    destruct (ascii_dec "<" c) as [<-|Hne]; [by rewrite Ascii.eqb_refl in Hc|].
    destruct (IH (cur +:+ String c "") Hn) as (p & more & ->).
    exists p, more. by rewrite !append_cons, !append_assoc.
Qed.

(** The token before the first space of a name without spaces is the name. *)
Lemma split_space_name n p cur :
  plain_name n = true →
  split_go " " 0 cur (n +:+ String " " p) = (cur +:+ n) :: split_go " " 0 "" p.
Proof.
  revert cur. induction n as [|c n IH]; intros cur Hn.
  - rewrite append_nil_l. cbn [split_go String.prefix].
    destruct p; by rewrite append_nil_r.
  - cbn [plain_name] in Hn. apply andb_true_iff in Hn as [Hc Hn].
    apply andb_true_iff in Hc as [Hc _]. apply negb_true_iff in Hc.
    rewrite append_cons. cbn [split_go String.prefix].
    destruct (ascii_dec " " c) as [<-|Hne]; [by rewrite Ascii.eqb_refl in Hc|].
    rewrite (IH _ Hn). by rewrite append_assoc.
Qed.

(** For the representation of a plain function, ["<function NAME at 0x...>"],
    the recovered name is the function's name. *)
Lemma probe_name_function n rest :
  plain_name n = true →
  probe_name ("<function " +:+ n +:+ String " " rest) = Ok n.
Proof.
  intros Hn. unfold probe_name.
  change (contains "<function" ("<function " +:+ n +:+ String " " rest)) with true.
  cbv iota. unfold split at 1.
  rewrite split_go_sep.
  destruct (split_function_name n rest "" Hn) as (p & more & ->).
  cbn [lookup list_lookup]. rewrite append_nil_l.
  unfold split. rewrite (split_space_name n p "" Hn). done.
Qed.

Lemma prefix_shorter a b s :
  String.prefix (a +:+ b) s = true → String.prefix a s = true.
Proof.
  revert s. induction a as [|c a IH]; intros s; [by destruct s|].
  rewrite append_cons. destruct s as [|d s]; cbn [String.prefix]; [done|].
  destruct (ascii_dec c d); [apply IH|done].
Qed.

Lemma contains_shorter a b s : contains (a +:+ b) s = true → contains a s = true.
Proof.
  induction s as [|c s IH]; cbn [contains]; rewrite !orb_true_iff.
  - intros [H|]; [|done]. left. by eapply prefix_shorter.
  - intros [H|H]; [left; by eapply prefix_shorter|right; by apply IH].
Qed.

(** Without the separator the split has one piece. *)
Lemma split_go_one sep s cur :
  contains sep s = false → split_go sep 0 cur s = [cur +:+ s].
Proof.
  revert cur. induction s as [|c s IH]; intros cur; cbn [contains].
  - intros _. by rewrite append_nil_r.
  - intros [Hp Hs]%orb_false_iff. cbn [split_go]. rewrite Hp, (IH _ Hs).
    by rewrite append_assoc.
Qed.

(** With the separator it has at least two. *)
Lemma split_go_two c sep s cur :
  contains (String c sep) s = true →
  ∃ a b more, split_go (String c sep) 0 cur s = a :: b :: more.
Proof.
  revert cur. induction s as [|d s IH]; intros cur; cbn [contains].
  - done.
  - cbn [split_go]. destruct (String.prefix (String c sep) (String d s)).
    + intros _.
      destruct (split_go_head (String c sep) s
                  (String.length (String c sep) - 1) "") as (p & more & ->).
      by eexists _, _, _.
    + intros H. by apply IH.
Qed.

(** The three cases of the name recovery. *)
Lemma probe_name_cases s :
  (contains "<function " s = true →
   ∃ after token,
     split "<function " s !! 1 = Some after ∧
     split " " after !! 0 = Some token ∧
     probe_name s = Ok token) ∧
  (contains "<function" s = false → probe_name s = Ok "unknown") ∧
  (contains "<function" s = true → contains "<function " s = false →
   probe_name s = Raise (IndexError "list index out of range")).
Proof.
  split; [|split].
  - intros H. unfold probe_name.
    rewrite (contains_shorter "<function" " " s H).
    destruct (split_go_two _ _ s "" H) as (a & after & more & Hsplit).
    destruct (split_go_head " " after 0 "") as (token & more' & Htoken).
    exists after, token. unfold split. rewrite Hsplit. cbn [lookup list_lookup].
    rewrite Htoken. by rewrite append_nil_l.
  - unfold probe_name. by intros ->.
  - intros H1 H2. unfold probe_name. rewrite H1.
    unfold split. by rewrite (split_go_one _ _ _ H2).
Qed.

End NameFacts.

(** ** The username path *)

Section UsernameFacts.
Import Py MaigretService.
Context `{M : Maigret}.

Lemma classify_spec items found not_found :
  classify items found not_found =
  (found ++ (entry_of <$> filter claimed items),
   not_found ++ (entry_of <$> filter (λ i, ¬ claimed i) items)).
Proof.
  revert found not_found.
  induction items as [|[site_name sd] items IH]; intros found not_found;
    cbn [classify].
  - by rewrite !filter_nil, !fmap_nil, !app_nil_r.
  - destruct (is_claimed (status (make_entry site_name sd))) eqn:Hc; rewrite IH.
    + rewrite filter_cons_True by exact Hc.
      rewrite filter_cons_False by (intros H; apply H; exact Hc).
      by rewrite fmap_cons, <- app_assoc.
    + assert (¬ claimed (site_name, sd)) as Hn.
      { unfold claimed, entry_of. cbn [fst snd]. congruence. }
      rewrite filter_cons_False by exact Hn.
      rewrite filter_cons_True by exact Hn.
      by rewrite fmap_cons, <- app_assoc.
Qed.

Lemma partition_perm (items : list (string * site_data)) :
  filter claimed items ++ filter (λ i, ¬ claimed i) items ≡ₚ items.
Proof.
  induction items as [|i items IH]; [done|].
  destruct (decide (claimed i)).
  - rewrite filter_cons_True, filter_cons_False by tauto. simpl. by rewrite IH.
  - rewrite filter_cons_False, filter_cons_True by tauto.
    rewrite <- Permutation_middle. by rewrite IH.
Qed.

Lemma maigret_search_username_Ok username_ top_sites timeout tags_ site_list use_cookies resp :
  maigret_search_username username_ top_sites timeout tags_ site_list use_cookies = Ok resp →
  ∃ sites raw,
    _load_sites top_sites tags_ site_list = Ok sites ∧
    search username_ sites timeout (if use_cookies then Some "cookies.txt" else None) = Ok raw ∧
    resp = {| username := username_;
              sites_found := entry_of <$> filter claimed raw;
              sites_not_found := entry_of <$> filter (λ i, ¬ claimed i) raw;
              total_sites_checked := length raw |}.
Proof.
  unfold maigret_search_username.
  destruct (_load_sites top_sites tags_ site_list) as [sites|]; simpl; [|done].
  destruct (search _ _ _ _) as [raw|] eqn:Hraw; simpl; [|done].
  intros [= <-]. exists sites, raw. by rewrite classify_spec.
Qed.

Lemma claimed_iff item :
  claimed item ↔
  ∃ o st, sd_status item.2 = Some o ∧ check_status o = Some st ∧
          (lower (status_text st) = "claimed" ∨ lower (status_text st) = "found").
Proof.
  unfold claimed, entry_of, make_entry. simpl.
  destruct (sd_status item.2) as [o|]; simpl.
  - destruct (check_status o) as [st|] eqn:Hst; simpl.
    + rewrite andb_true_iff, orb_true_iff, !String.eqb_eq. split.
      * intros [_ H]. exists o, st. done.
      * intros (o' & st' & [= <-] & Hst' & H).
        rewrite Hst in Hst'. injection Hst' as <-. split; [|done].
        destruct st as [s|]; [|done]. simpl in *.
        destruct s; [|done]. simpl in H. by destruct H.
    + split; [done|]. intros (o' & st' & [= <-] & Hst' & _). congruence.
  - split; [done|]. by intros (? & ? & ? & _).
Qed.

End UsernameFacts.

(** * The claims *)

Import Py PySort Backend MaigretService Samples.

(** C1 (amended). When the full report is asked for ([only_found] false),
    [format_results] returns [total_checked = len(raw_results)], builds
    exactly one [PlatformInfo] per raw result, in order, whose [exists] flag
    is the truthiness of the result's ["exists"] field, so that
    [total_checked] is the number of entries with [exists] true (which is
    [found_count], and lists [platforms_found]) plus the number with
    [exists] false; an errored outcome is one of the latter. In found-only
    mode [total_checked] is still [len(raw_results)] and [found_count] the
    number of results found, the others appearing in no list. A response is
    returned whenever the raw results are well shaped. In the username path
    [total_sites_checked = len(raw_results) = len(sites_found) +
    len(sites_not_found)], every site being filed under exactly one of the
    two lists. *)
Theorem C1_total_checked_partition :
  (∀ now raw email_ resp,
     format_results now raw email_ false = Ok resp →
     total_checked resp = length raw ∧
     ∃ det,
       detailed_results resp = Some det ∧
       Forall2 info_of raw det ∧
       platforms_found resp = platform <$> filter (λ i, exists_ i = true) det ∧
       found_count resp = length (filter (λ i, exists_ i = true) det) ∧
       total_checked resp =
         length (filter (λ i, exists_ i = true) det) +
         length (filter (λ i, exists_ i = false) det)) ∧
  (∀ now raw email_ resp,
     format_results now raw email_ true = Ok resp →
     total_checked resp = length raw ∧
     found_count resp = length (filter (λ r, is_found r = true) raw) ∧
     length (platforms_found resp) = found_count resp ∧
     detailed_results resp = None) ∧
  (∀ now raw email_ only_found,
     Forall (λ r, well_shaped r = true) raw →
     ∃ resp, format_results now raw email_ only_found = Ok resp) ∧
  (∀ n d, is_found (errored_outcome n d) = false ∧
          well_shaped (errored_outcome n d) = true) ∧
  (∀ (M : Maigret) u top timeout tags_ names cookies resp,
     maigret_search_username u top timeout tags_ names cookies = Ok resp →
     total_sites_checked resp =
       length (sites_found resp) + length (sites_not_found resp) ∧
     ∃ sites raw,
       _load_sites top tags_ names = Ok sites ∧
       search u sites timeout (if cookies : bool then Some "cookies.txt" else None)
         = Ok raw ∧
       total_sites_checked resp = length raw ∧
       sites_found resp = entry_of <$> filter claimed raw ∧
       sites_not_found resp = entry_of <$> filter (λ i, ¬ claimed i) raw ∧
       sites_found resp ++ sites_not_found resp ≡ₚ entry_of <$> raw).
Proof.
  split; [|split; [|split; [|split]]].
  - intros now raw email_ resp (infos & Hinfos & ->)%format_results_Ok.
    rewrite filter_kept_all in Hinfos. cbn.
    split; [done|]. exists infos. repeat split; try done.
    rewrite <- filter_exists_split. exact (Forall2_length _ _ _ Hinfos).
  - intros now raw email_ resp (infos & Hinfos & ->)%format_results_Ok.
    rewrite filter_kept_found in Hinfos. cbn.
    rewrite length_fmap. repeat split.
    rewrite (Forall2_length _ _ _ Hinfos).
    apply info_of_all_found in Hinfos.
    f_equal. clear -Hinfos. induction Hinfos as [|i infos Hi _ IH]; [done|].
    rewrite filter_cons_True by done. by rewrite IH.
  - intros. by apply format_results_total.
  - done.
  - intros M u top timeout tags_ names cookies resp H.
    apply maigret_search_username_Ok in H as (sites & raw & Hsites & Hraw & ->). cbn.
    split.
    + rewrite <- length_app, <- fmap_app, partition_perm. by rewrite length_fmap.
    + exists sites, raw. split_and!; [done..|]. by rewrite <- fmap_app, partition_perm.
Qed.

Lemma C1_witness :
  (∃ resp,
     format_results "2026-11-03T10:00:00" [github_found; twitter_absent; errored_outcome "yahoo" "unknown"]
       "x@example.com" false = Ok resp ∧
     total_checked resp = 3) ∧
  (∃ resp,
     @maigret_search_username
       (answering_maigret [("github", claimed_site); ("tiktok", no_status_site)])
       "alice" 200 30 None None false = Ok resp ∧
     total_sites_checked resp = 2 ∧
     length (sites_found resp) + length (sites_not_found resp) = 2).
Proof.
  split.
  - eexists. split; [vm_compute; reflexivity|].
    refine (proj1 (proj1 C1_total_checked_partition "2026-11-03T10:00:00"
              [github_found; twitter_absent; errored_outcome "yahoo" "unknown"]
              "x@example.com" _ _)).
    vm_compute. reflexivity.
  - assert (@maigret_search_username
              (answering_maigret [("github", claimed_site); ("tiktok", no_status_site)])
              "alice" 200 30 None None false =
            Ok {| username := "alice";
                  sites_found := [entry_of ("github", claimed_site)];
                  sites_not_found := [entry_of ("tiktok", no_status_site)];
                  total_sites_checked := 2 |}) as Hrun by reflexivity.
    eexists. split; [exact Hrun|].
    destruct (proj2 (proj2 (proj2 (proj2 C1_total_checked_partition)))
                _ _ _ _ _ _ _ _ Hrun)
      as (Hsum & sites & raw & _ & Hraw & Htotal & _).
    injection Hraw as <-. split; [exact Htotal|exact (eq_trans (eq_sym Hsum) Htotal)].
Defined.

(** C1, as stated, fails in found-only mode: a raw result that is not found
    is counted in [total_checked] and placed in no list. *)
Lemma C1_counterexample :
  ∃ resp,
    format_results "2026-11-03T10:00:00" [twitter_absent] "x@example.com" true = Ok resp ∧
    total_checked resp = 1 ∧
    platforms_found resp = [] ∧
    found_count resp = 0 ∧
    detailed_results resp = None.
Proof. eexists. split; [vm_compute; reflexivity|]. done. Qed.




(** C3 (amended). In the e-mail path the list returned by
    [check_email_trio] is in ascending order of the ["name"] field, and when
    the outcomes carry pairwise distinct string names the returned list is
    the same for every order of arrival; it holds what the tasks appended.
    The username path does not sort: [sites_found] and [sites_not_found]
    list the sites in the order in which [raw_results] yields them. *)
Theorem C3_ordering :
  (∀ installed schedule email_ excl timeout results,
     (check_email_trio installed schedule email_ excl timeout).2 = Ok results →
     ascending sort_key results) ∧
  (∀ modules email_ excl timeout s1 s2,
     Forall (str_keyed sort_key)
       (concat (contribution email_ (AsyncClient timeout) <$>
                  get_check_functions modules excl)) →
     NoDup (name_str <$>
       concat (contribution email_ (AsyncClient timeout) <$>
                 get_check_functions modules excl)) →
     check_email_trio (Some modules) s1 email_ excl timeout =
     check_email_trio (Some modules) s2 email_ excl timeout) ∧
  (∀ modules schedule email_ excl timeout,
     is_valid_email email_ = true →
     Forall (contained email_ (AsyncClient timeout)) (get_check_functions modules excl) →
     Forall (str_keyed sort_key)
       (concat (contribution email_ (AsyncClient timeout) <$>
                  get_check_functions modules excl)) →
     ∃ results,
       (check_email_trio (Some modules) schedule email_ excl timeout).2 = Ok results ∧
       results ≡ₚ concat (contribution email_ (AsyncClient timeout) <$>
                            get_check_functions modules excl)) ∧
  (∀ (M : Maigret) u top timeout tags_ names cookies resp,
     maigret_search_username u top timeout tags_ names cookies = Ok resp →
     ∃ raw,
       search u (match _load_sites top tags_ names with Ok s => s | Raise _ => [] end)
         timeout (if cookies : bool then Some "cookies.txt" else None) = Ok raw ∧
       sites_found resp = entry_of <$> filter claimed raw ∧
       sites_not_found resp = entry_of <$> filter (λ i, ¬ claimed i) raw).
Proof.
  split; [|split; [|split]].
  - apply check_email_trio_sorted.
  - intros. by apply check_email_trio_arrival.
  - intros modules schedule email_ excl timeout Hv Hc Hstr.
    rewrite check_email_trio_contained by done. cbn [snd].
    destruct (list_sort_total sort_key
                (collect schedule (contribution email_ (AsyncClient timeout) <$>
                                     get_check_functions modules excl))) as [results Hr].
    { by rewrite collect_perm. }
    exists results. split; [done|].
    apply list_sort_spec in Hr as [Hp _]. by rewrite <- Hp, collect_perm.
  - intros M u top timeout tags_ names cookies resp H.
    apply maigret_search_username_Ok in H as (sites & raw & -> & Hraw & ->).
    by exists raw.
Qed.

Lemma C3_witness :
  check_email_trio (Some three_probes) [2; 0; 1] "x@example.com" true 15 =
  check_email_trio (Some three_probes) [1; 1; 0] "x@example.com" true 15.
Proof.
  apply (proj1 (proj2 C3_ordering)).
  - apply (bool_decide_unpack _). vm_compute. exact I.
  - apply (bool_decide_unpack _). vm_compute. exact I.
Defined.

(** C3, as stated, fails in the username path: the sites come out in the
    order of the raw results, here "tiktok" before "github", and another
    order of the same raw results gives another output. *)
Lemma C3_counterexample :
  ∃ r1 r2,
    @maigret_search_username (listing_maigret ["tiktok"; "github"])
      "alice" 200 30 None None false = Ok r1 ∧
    @maigret_search_username (listing_maigret ["github"; "tiktok"])
      "alice" 200 30 None None false = Ok r2 ∧
    site <$> sites_found r1 = ["tiktok"; "github"] ∧
    site <$> sites_found r2 = ["github"; "tiktok"].
Proof.
  eexists _, _. split; [vm_compute; reflexivity|].
  split; [vm_compute; reflexivity|]. split; reflexivity.
Qed.

(** C4 (amended). The engine has no deadline of its own: [timeout] is only
    handed to the HTTP client, and a probe whose request times out is a
    probe that raises. Such a probe leaves exactly one errored outcome, the
    same dictionary as for any other exception (its eight fields carry no
    reason). In a batch whose probes each either raise in this way or
    report once, the returned list matches the probes one to one, so its
    length is the number of probes. *)
Theorem C4_timeouts_are_plain_errors :
  (∀ module email_ c e name_,
     probe_call module email_ c = ([], Some e) →
     exc_is_exception e = true →
     probe_name (probe_str module) = Ok name_ →
     launch_module_check module email_ c =
       ([errored_outcome name_ (default "unknown" (DOMAIN_MAP !! name_))], None)) ∧
  (∀ n d, dom (errored_outcome n d) =
          list_to_set ["name"; "domain"; "rateLimit"; "error"; "exists";
                       "emailrecovery"; "phoneNumber"; "others"]) ∧
  (∀ modules schedule email_ excl timeout,
     is_valid_email email_ = true →
     Forall (λ w, raises_cleanly w email_ (AsyncClient timeout) = true ∨
                  reports_once w email_ (AsyncClient timeout) = true)
            (get_check_functions modules excl) →
     ∃ results arrival,
       (check_email_trio (Some modules) schedule email_ excl timeout).2 = Ok results ∧
       results ≡ₚ arrival ∧
       Forall2 (leaves email_ (AsyncClient timeout))
               (get_check_functions modules excl) arrival ∧
       length results = length (get_check_functions modules excl)) ∧
  (∀ modules schedule email_ excl t1 t2,
     (∀ w, w ∈ get_check_functions modules excl →
           probe_call w email_ (AsyncClient t1) = probe_call w email_ (AsyncClient t2)) →
     check_email_trio (Some modules) schedule email_ excl t1 =
     check_email_trio (Some modules) schedule email_ excl t2).
Proof.
  split; [|split; [|split]].
  - intros module email_ c e name_ Hcall He Hname.
    unfold launch_module_check. by rewrite Hcall, He, Hname.
  - intros n d. unfold errored_outcome. rewrite dom_list_to_map_L. done.
  - intros modules schedule email_ excl timeout Hv Hall.
    destruct (batch_one_each modules schedule email_ excl timeout Hv Hall)
      as (results & -> & Hp & Hlen & _).
    eexists results, _. split; [done|]. split; [exact Hp|].
    split; [by apply one_each_leaves|done].
  - intros modules schedule email_ excl t1 t2 Hsame.
    unfold check_email_trio.
    assert ((λ w, launch_module_check w email_ (AsyncClient t1)) <$>
              get_check_functions modules excl =
            (λ w, launch_module_check w email_ (AsyncClient t2)) <$>
              get_check_functions modules excl) as Htasks.
    { apply list_eq_Forall2, Forall2_fmap, Forall_Forall2_diag, list.Forall_forall.
      intros w Hw. unfold launch_module_check. by rewrite (Hsame w Hw). }
    cbn [import_holehe_modules]. cbv zeta. by rewrite Htasks.
Qed.

Lemma C4_witness :
  launch_module_check (raising "<function github at 0x7f3a5c1d2e50>" ReadTimeout)
    "x@example.com" (AsyncClient 15) =
  ([errored_outcome "github" "github.com"], None).
Proof.
  apply (proj1 C4_timeouts_are_plain_errors _ _ _ ReadTimeout "github"); reflexivity.
Defined.

(** C4, as stated, fails: the outcome recorded for a probe whose request
    timed out is the one recorded for the same probe failing in any other
    way, and none of its fields tells a reason. *)
Lemma C4_counterexample :
  launch_module_check (raising "<function yahoo at 0x7f3a5c1d2f70>" ReadTimeout)
    "x@example.com" (AsyncClient 15) = ([errored_outcome "yahoo" "unknown"], None) ∧
  launch_module_check (raising "<function yahoo at 0x7f3a5c1d2f70>" (ValueError "boom"))
    "x@example.com" (AsyncClient 15) = ([errored_outcome "yahoo" "unknown"], None) ∧
  size (errored_outcome "yahoo" "unknown") = 8 ∧
  errored_outcome "yahoo" "unknown" !! "reason" = None ∧
  errored_outcome "yahoo" "unknown" !! "timeout" = None.
Proof. repeat split; vm_compute; reflexivity. Qed.

(** C5 (amended). The service does not compare the explicit names with the
    catalogue: [_load_sites] hands [site_list] to the library's
    [ranked_sites_dict] and returns what the library returns. Whenever the
    library returns a dictionary of sites the search runs on it, and
    [_load_sites] raises only what the library raised. *)
Theorem C5_names_not_checked :
  (∀ (M : Maigret) top tags_ names db sites,
     load_from_path MAIGRET_DB_FILE = Ok db →
     ranked_sites_dict db top (default [] tags_) (default [] names) false "username"
       = Ok sites →
     _load_sites top tags_ names = Ok sites ∧
     ∀ u timeout cookies raw,
       search u sites timeout (if cookies : bool then Some "cookies.txt" else None) = Ok raw →
       ∃ resp,
         maigret_search_username u top timeout tags_ names cookies = Ok resp ∧
         total_sites_checked resp = length raw) ∧
  (∀ (M : Maigret) top tags_ names e,
     _load_sites top tags_ names = Raise e →
     load_from_path MAIGRET_DB_FILE = Raise e ∨
     ∃ db, load_from_path MAIGRET_DB_FILE = Ok db ∧
           ranked_sites_dict db top (default [] tags_) (default [] names) false "username"
             = Raise e).
Proof.
  split.
  - intros M top tags_ names db sites Hdb Hsites.
    assert (_load_sites top tags_ names = Ok sites) as Hload.
    { unfold _load_sites. rewrite Hdb. exact Hsites. }
    split; [exact Hload|].
    intros u timeout cookies raw Hraw. unfold maigret_search_username.
    rewrite Hload. cbn [mbind result_bind]. rewrite Hraw. cbn [mbind result_bind].
    eexists. split; [reflexivity|done].
  - intros M top tags_ names e. unfold _load_sites.
    destruct (load_from_path MAIGRET_DB_FILE) as [db|e'] eqn:Hdb; cbn [mbind result_bind].
    + intros H. right. by exists db.
    + intros [= ->]. by left.
Qed.

Lemma C5_witness :
  @_load_sites (listing_maigret ["github"; "tiktok"]) 200 None (Some ["github"; "nosuchsite"])
    = Ok [("github", tt)].
Proof.
  apply (proj1 (@C5_names_not_checked) (listing_maigret ["github"; "tiktok"])
           200 None (Some ["github"; "nosuchsite"]) ["github"; "tiktok"]);
    vm_compute; reflexivity.
Defined.

(** C5, as stated, fails: with a library whose lookup keeps the listed
    sites it knows, a list naming a site that is not in the catalogue
    resolves to the known sites, and the search runs on them. *)
Lemma C5_counterexample :
  @_load_sites (listing_maigret ["github"; "tiktok"]) 200 None (Some ["github"; "nosuchsite"])
    = Ok [("github", tt)] ∧
  ∃ resp,
    @maigret_search_username (listing_maigret ["github"; "tiktok"])
      "alice" 200 30 None (Some ["github"; "nosuchsite"]) false = Ok resp ∧
    total_sites_checked resp = 1 ∧
    site <$> sites_found resp = ["github"].
Proof.
  split; [vm_compute; reflexivity|].
  eexists. split; [vm_compute; reflexivity|]. split; reflexivity.
Qed.

(** C6. In found-only mode the response carries no [detailed_results] list
    at all ([None], not an empty list), while [total_checked] is still the
    length of the raw result list, the same value as in the full report. *)
Theorem C6_found_only_omits_details :
  (∀ now raw email_ resp,
     format_results now raw email_ true = Ok resp →
     detailed_results resp = None ∧
     detailed_results resp ≠ Some [] ∧
     total_checked resp = length raw ∧
     ∀ resp', format_results now raw email_ false = Ok resp' →
              total_checked resp' = total_checked resp) ∧
  (∀ now raw email_,
     Forall (λ r, well_shaped r = true) raw →
     ∃ resp, format_results now raw email_ true = Ok resp).
Proof.
  split.
  - intros now raw email_ resp (infos & _ & ->)%format_results_Ok. cbn.
    repeat split; [done|].
    by intros resp' (infos' & _ & ->)%format_results_Ok.
  - intros. by apply format_results_total.
Qed.

Lemma C6_witness :
  ∃ resp,
    format_results "2026-11-03T10:00:00" [github_found; twitter_absent] "x@example.com" true
      = Ok resp ∧
    detailed_results resp = None ∧ total_checked resp = 2.
Proof.
  eexists. split; [vm_compute; reflexivity|].
  destruct (proj1 C6_found_only_omits_details "2026-11-03T10:00:00"
              [github_found; twitter_absent] "x@example.com" _ eq_refl)
    as (Hnone & _ & Htotal & _).
  split; [exact Hnone|exact Htotal].
Defined.

(** C7. An identity that does not match [EMAIL_FORMAT] makes
    [check_email_trio] raise [ValueError] right after the validation:
    nothing is imported, no probe is launched, no outcome is recorded. In
    every run the validation is the first thing done and is done once. *)
Theorem C7_invalid_email_rejected_first :
  (∀ installed schedule email_ excl timeout,
     is_valid_email email_ = false →
     check_email_trio installed schedule email_ excl timeout =
       ([EvValidate email_], Raise (ValueError ("Invalid email format: " +:+ email_)))) ∧
  (∀ installed schedule email_ excl timeout,
     ∃ rest,
       (check_email_trio installed schedule email_ excl timeout).1 = EvValidate email_ :: rest ∧
       ∀ e, EvValidate e ∉ rest).
Proof.
  split.
  - intros installed schedule email_ excl timeout H.
    unfold check_email_trio. by rewrite H.
  - intros installed schedule email_ excl timeout. unfold check_email_trio.
    destruct (is_valid_email email_); cbn [negb].
    + destruct installed as [modules|]; cbn [import_holehe_modules].
      * exists (EvImport :: ((λ w, EvLaunch (probe_str w)) <$>
                               get_check_functions modules excl)).
        split; [by destruct (first_raised _)|].
        intros e [|(w & ? & _)%list_elem_of_fmap]%elem_of_cons; done.
      * exists [EvImport]. split; [done|]. by intros e [|[]%elem_of_nil]%elem_of_cons.
    + exists []. split; [done|]. intros e. apply not_elem_of_nil.
Qed.

Lemma C7_witness :
  check_email_trio (Some three_probes) [2; 0; 1] "not an address" true 15 =
    ([EvValidate "not an address"],
     Raise (ValueError "Invalid email format: not an address")).
Proof.
  apply (proj1 C7_invalid_email_rejected_first). vm_compute. reflexivity.
Defined.

(** C8. In the username path a site is filed under [sites_found] exactly
    when its status, printed and lowercased, is "claimed" or "found"; every
    other site, one without status included, is filed under
    [sites_not_found]. In the e-mail path a raw result counts as found
    exactly when its ["exists"] field is truthy. *)
Theorem C8_partition_criteria :
  (∀ item,
     claimed item ↔
     ∃ o st, sd_status item.2 = Some o ∧ check_status o = Some st ∧
             (lower (status_text st) = "claimed" ∨ lower (status_text st) = "found")) ∧
  (∀ item, sd_status item.2 = None → ¬ claimed item) ∧
  (∀ (M : Maigret) u top timeout tags_ names cookies resp,
     maigret_search_username u top timeout tags_ names cookies = Ok resp →
     ∃ sites raw,
       _load_sites top tags_ names = Ok sites ∧
       search u sites timeout (if cookies : bool then Some "cookies.txt" else None)
         = Ok raw ∧
       sites_found resp = entry_of <$> filter claimed raw ∧
       sites_not_found resp = entry_of <$> filter (λ i, ¬ claimed i) raw ∧
       ∀ item, item ∈ raw →
         (claimed item →
          entry_of item ∈ sites_found resp ∧ entry_of item ∉ sites_not_found resp) ∧
         (¬ claimed item →
          entry_of item ∈ sites_not_found resp ∧ entry_of item ∉ sites_found resp)) ∧
  (∀ now raw email_ only_found resp,
     format_results now raw email_ only_found = Ok resp →
     VStr <$> platforms_found resp =
       (λ r, get_or r "domain" (VStr "unknown")) <$>
         filter (λ r, truthy (get r "exists") = true) raw ∧
     (only_found = false →
      ∃ det, detailed_results resp = Some det ∧
             Forall2 (λ r i, exists_ i = truthy (get r "exists")) raw det)).
Proof.
  split; [|split; [|split]].
  - apply claimed_iff.
  - intros item Hnone (o & st & Ho & _)%claimed_iff. congruence.
  - intros M u top timeout tags_ names cookies resp H.
    apply maigret_search_username_Ok in H as (sites & raw & Hsites & Hraw & ->).
    exists sites, raw. cbn [sites_found sites_not_found].
    split_and!; [done..|]. intros item Hitem.
    assert (∀ other, entry_of other = entry_of item → claimed other ↔ claimed item)
      as Hsame by (intros other Heq; unfold claimed; by rewrite Heq).
    split; intros Hc; split.
    + apply list_elem_of_fmap_2, list_elem_of_filter. done.
    + intros (other & Heq & [Hn _]%list_elem_of_filter)%list_elem_of_fmap.
      apply Hn. by apply (Hsame other).
    + apply list_elem_of_fmap_2, list_elem_of_filter. done.
    + intros (other & Heq & [Ho _]%list_elem_of_filter)%list_elem_of_fmap.
      apply Hc. by apply (Hsame other).
  - intros now raw email_ only_found resp (infos & Hinfos & ->)%format_results_Ok.
    cbn. split.
    + rewrite (found_platforms _ _ Hinfos). by rewrite filter_found_kept.
    + intros ->. rewrite filter_kept_all in Hinfos. exists infos. split; [done|].
      apply (Forall2_impl _ _ _ _ Hinfos). by intros r i (? & _).
Qed.

Lemma C8_witness :
  claimed ("github", claimed_site) ∧ ¬ claimed ("github", no_status_site) ∧
  ∃ resp,
    @maigret_search_username
      (answering_maigret [("github", claimed_site); ("tiktok", no_status_site)])
      "alice" 200 30 None None false = Ok resp ∧
    entry_of ("github", claimed_site) ∈ sites_found resp ∧
    entry_of ("tiktok", no_status_site) ∈ sites_not_found resp ∧
    entry_of ("tiktok", no_status_site) ∉ sites_found resp.
Proof.
  assert (claimed ("github", claimed_site)) as Hclaimed.
  { apply (proj1 C8_partition_criteria). eexists _, _.
    split; [reflexivity|]. split; [reflexivity|]. left. reflexivity. }
  assert (∀ name_, ¬ claimed (name_, no_status_site)) as Hnot.
  { intros name_. apply (proj1 (proj2 C8_partition_criteria)). reflexivity. }
  split_and!; [exact Hclaimed|apply Hnot|].
  assert (@maigret_search_username
            (answering_maigret [("github", claimed_site); ("tiktok", no_status_site)])
            "alice" 200 30 None None false =
          Ok {| username := "alice";
                sites_found := [entry_of ("github", claimed_site)];
                sites_not_found := [entry_of ("tiktok", no_status_site)];
                total_sites_checked := 2 |}) as Hrun by reflexivity.
  eexists. split; [exact Hrun|].
  destruct (proj1 (proj2 (proj2 C8_partition_criteria)) _ _ _ _ _ _ _ _ Hrun)
    as (sites & raw & _ & Hraw & _ & _ & Hfiled).
  injection Hraw as <-.
  split_and!.
  - apply (Hfiled ("github", claimed_site)); [left|exact Hclaimed].
  - apply (Hfiled ("tiktok", no_status_site)); [right; left|apply Hnot].
  - apply (Hfiled ("tiktok", no_status_site)); [right; left|apply Hnot].
Defined.

(** C9. A selection that leaves no probe is a valid batch without
    outcomes: [check_email_trio] returns the empty list, [format_results]
    turns it into a response with [total_checked = 0] and empty lists, and
    the username path returns [total_sites_checked = 0] with two empty
    lists; nothing is raised. *)
Theorem C9_empty_probe_set :
  (∀ modules schedule email_ excl timeout now only_found,
     is_valid_email email_ = true →
     get_check_functions modules excl = [] →
     check_email_trio (Some modules) schedule email_ excl timeout =
       ([EvValidate email_; EvImport], Ok []) ∧
     format_results now [] email_ only_found =
       Ok {| success := true; email := email_; total_checked := 0;
             found_count := 0; platforms_found := [];
             detailed_results := if only_found then None else Some [];
             checked_at := now |}) ∧
  (∀ (M : Maigret) u top timeout tags_ names cookies,
     _load_sites top tags_ names = Ok [] →
     search u [] timeout (if cookies : bool then Some "cookies.txt" else None) = Ok [] →
     maigret_search_username u top timeout tags_ names cookies =
       Ok {| username := u; sites_found := []; sites_not_found := [];
             total_sites_checked := 0 |}).
Proof.
  split.
  - intros modules schedule email_ excl timeout now only_found Hv Hnone.
    split; [|by destruct only_found].
    unfold check_email_trio, import_holehe_modules. rewrite Hv. cbn [negb].
    rewrite Hnone. cbn.
    assert (collect schedule [] = []) as ->; [|done].
    apply Permutation_nil_r. apply (collect_perm schedule []).
  - intros M u top timeout tags_ names cookies Hload Hsearch.
    unfold maigret_search_username. rewrite Hload. cbn. by rewrite Hsearch.
Qed.

Lemma C9_witness :
  check_email_trio
    (Some [holehe_module "adobe" (reporting "adobe" (holehe_result "adobe" "adobe.com" true))])
    [0] "x@example.com" true 15 =
  ([EvValidate "x@example.com"; EvImport], Ok []).
Proof.
  apply (proj1 C9_empty_probe_set _ _ _ _ _ "2026-11-03T10:00:00" false);
    vm_compute; reflexivity.
Defined.

(** C10. The guard of the handler looks for ['<function'] while the split
    uses ['<function '], with a space. For a callable whose [str] has the
    first and not the second (an instance of a class [Probe] of a module
    [functions]) the name is not 'unknown': the handler raises [IndexError],
    the exception leaves the task and ends the batch. *)
Theorem C10_name_guard_mismatch :
  contains "<function " (probe_str object_probe) = false ∧
  contains "<function" (probe_str object_probe) = true ∧
  probe_name (probe_str object_probe) = Raise (IndexError "list index out of range") ∧
  launch_module_check object_probe "x@example.com" (AsyncClient 15) =
    ([], Some (IndexError "list index out of range")) ∧
  (check_email_trio (Some [holehe_module "probe" object_probe]) [] "x@example.com" true 15).2
    = Raise (IndexError "list index out of range").
Proof. repeat split; vm_compute; reflexivity. Qed.

(** Name recovery and domain lookup on ordinary inputs. *)
Lemma probe_name_example :
  probe_name "<function instagram at 0x7f3a5c1d2e50>" = Ok "instagram" ∧
  probe_name "functools.partial(<function yahoo at 0x7f3a5c1d2f70>)" = Ok "yahoo" ∧
  probe_name "<bound method Checker.run of <Checker object at 0x7f3a5c1d2e50>>"
    = Ok "unknown".
Proof. repeat split; vm_compute; reflexivity. Qed.

Lemma domain_of_unmapped n :
  n ∉ dom DOMAIN_MAP → default "unknown" (DOMAIN_MAP !! n) = "unknown".
Proof. intros H%not_elem_of_dom. by rewrite H. Qed.

Lemma DOMAIN_MAP_size : size DOMAIN_MAP = 21.
Proof. vm_compute. reflexivity. Qed.

(** [EMAIL_FORMAT] on a few addresses: the boundaries exclude a leading
    ["."] or ["+"] and a trailing ["|"], the last label needs two letters. *)
Lemma is_valid_email_examples :
  is_valid_email <$> ["user@example.com"; "a+x@sub.b.co"; "_@-.aa"; "a@b.|om"] =
    [true; true; true; true] ∧
  is_valid_email <$> [""; "a@b.c"; ".a@b.co"; "+a@b.co"; "a@b.c|"; "a@@b.com"; "a b@c.de"] =
    [false; false; false; false; false; false; false].
Proof. split; vm_compute; reflexivity. Qed.

(** * Further properties *)

(** ** The address pattern *)

Section EmailFormatFacts.
Import Py Backend EmailSyntax.

Lemma class_rep_unfold cls min rest prev s :
  re_match_end (ReClass cls min :: rest) prev s =
  class_rep cls min (re_match_end rest) 0 prev s.
Proof.
  cbn [re_match_end]. generalize 0. revert prev.
  induction s as [|c s IH]; intros prev n; [done|].
  cbn [class_rep]. by rewrite <- IH.
Qed.

Lemma length_append s t : String.length (s +:+ t) = String.length s + String.length t.
Proof. induction s as [|c s IH]; [done|]. rewrite append_cons. cbn [String.length]. by rewrite IH. Qed.

Lemma last_char_append prev s t : last_char prev (s +:+ t) = last_char (last_char prev s) t.
Proof. revert prev. induction s as [|c s IH]; intros prev; [done|]. rewrite append_cons. apply IH. Qed.

(** A repetition matches when the text splits into characters of the class,
    enough of them, and a remainder the rest of the pattern matches. *)
Lemma class_rep_spec cls min rest n prev s :
  class_rep cls min rest n prev s = true ↔
  ∃ a b, s = a +:+ b ∧ all_chars cls a = true ∧ min ≤ n + String.length a ∧
         rest (last_char prev a) b = true.
Proof.
  revert n prev. induction s as [|c s IH]; intros n prev; cbn [class_rep].
  - rewrite orb_false_r, andb_true_iff, Nat.leb_le. split.
    + intros [? ?]. exists "", "". cbn [all_chars String.length last_char].
      split_and!; [done|done|lia|done].
    + intros (a & b & Hs & _ & Hn & Hr). destruct a; [|done]. destruct b; [|done].
      cbn in *. split; [lia|done].
  - rewrite orb_true_iff, !andb_true_iff, Nat.leb_le, IH. split.
    + intros [[Hn Hr]|[Hc (a & b & -> & Ha & Hn & Hr)]].
      * exists "", (String c s). cbn [all_chars String.length last_char].
        split_and!; [done|done|lia|done].
      * exists (String c a), b. rewrite append_cons. cbn [all_chars String.length last_char].
        rewrite Hc, Ha. split_and!; [done|done|lia|done].
    + intros (a & b & Hs & Ha & Hn & Hr). destruct a as [|x a].
      * left. rewrite append_nil_l in Hs. subst b. cbn in *. split; [lia|done].
      * right. rewrite append_cons in Hs. injection Hs as <- ->.
        cbn [all_chars String.length last_char] in *. apply andb_true_iff in Ha as [Hc Ha].
        split; [done|]. exists a, b. split_and!; [done|done|lia|done].
Qed.

Lemma char_spec c rest prev s :
  re_match_end (ReChar c :: rest) prev s = true ↔
  ∃ s', s = String c s' ∧ re_match_end rest (Some c) s' = true.
Proof.
  cbn [re_match_end]. destruct s as [|x s]; [split; [done|by intros (? & ? & _)]|].
  rewrite andb_true_iff, Ascii.eqb_eq. split.
  - intros [-> ?]. by exists s.
  - intros (s' & [= -> ->] & ?). done.
Qed.

Lemma boundary_spec rest prev s :
  re_match_end (ReWordBoundary :: rest) prev s =
  xorb (is_word_opt prev) (is_word_opt (next_char s)) && re_match_end rest prev s.
Proof. reflexivity. Qed.

Lemma boundary_end_spec prev s :
  re_match_end [ReWordBoundary] prev s = true ↔ s = "" ∧ is_word_opt prev = true.
Proof.
  cbn [re_match_end]. destruct s as [|x s].
  - cbn [next_char is_word_opt]. rewrite xorb_false_r, andb_true_r.
    split; [by intros ?|by intros [_ ?]].
  - rewrite andb_false_r. split; [done|by intros [? _]].
Qed.

Lemma last_char_nonempty prev s : 1 ≤ String.length s → last_char prev s = last_char None s.
Proof. destruct s; cbn [String.length last_char]; [lia|done]. Qed.

Lemma next_char_append s t : 1 ≤ String.length s → next_char (s +:+ t) = next_char s.
Proof. destruct s; cbn [String.length]; [lia|done]. Qed.

(** What [EMAIL_FORMAT] accepts. *)
Lemma is_valid_email_spec s : is_valid_email s = true ↔ well_formed_address s.
Proof.
  unfold is_valid_email, fullmatch, well_formed_address.
  change EMAIL_FORMAT with
    [ReWordBoundary; ReClass local_char 1; ReChar "@"; ReClass domain_char 1;
     ReChar "."; ReClass tld_char 2; ReWordBoundary].
  rewrite boundary_spec. cbn [is_word_opt]. rewrite xorb_false_l, andb_true_iff.
  rewrite class_rep_unfold, class_rep_spec.
  setoid_rewrite char_spec. setoid_rewrite class_rep_unfold.
  setoid_rewrite class_rep_spec. setoid_rewrite char_spec.
  setoid_rewrite class_rep_unfold. setoid_rewrite class_rep_spec.
  setoid_rewrite boundary_end_spec.
  split.
  - intros (Hfirst & l & s1 & -> & Hl & Hln & s2 & -> & d & s3 & -> & Hd & Hdn &
            s4 & -> & t & s5 & -> & Ht & Htn & -> & Hlast).
    exists l, d, t. rewrite append_nil_r.
    cbn [Nat.add] in *. rewrite next_char_append in Hfirst by done.
    rewrite last_char_nonempty in Hlast by lia.
    split_and!; done.
  - intros (l & d & t & -> & Hln & Hl & Hdn & Hd & Htn & Ht & Hfirst & Hlast).
    split; [by rewrite next_char_append|].
    exists l, ("@" +:+ d +:+ "." +:+ t). split_and!; [done..|].
    exists (d +:+ "." +:+ t). split; [done|].
    exists d, ("." +:+ t). split_and!; [done..|].
    exists t. split; [done|].
    exists t, "". rewrite append_nil_r. split_and!; [done..|].
    by rewrite last_char_nonempty by lia.
Qed.

Lemma occurrences_append c s t :
  occurrences c (s +:+ t) = occurrences c s + occurrences c t.
Proof.
  induction s as [|x s IH]; [done|]. rewrite append_cons. cbn [occurrences].
  rewrite IH. lia.
Qed.

Lemma occurrences_none cls c s :
  cls c = false → all_chars cls s = true → occurrences c s = 0.
Proof.
  intros Hc. induction s as [|x s IH]; [done|]. cbn [all_chars occurrences].
  intros [Hx Hs]%andb_true_iff. rewrite (IH Hs).
  destruct (Ascii.eqb_spec x c) as [->|]; [congruence|done].
Qed.

Lemma last_char_in cls s c :
  all_chars cls s = true → last_char None s = Some c → cls c = true.
Proof.
  assert (∀ prev, all_chars cls s = true → last_char prev s = Some c →
                  cls c = true ∨ (s = "" ∧ prev = Some c)) as H.
  { induction s as [|x s IH]; intros prev; cbn [all_chars last_char]; [by right|].
    intros [Hx Hs]%andb_true_iff Hlast.
    destruct (IH _ Hs Hlast) as [?|[-> [= ->]]]; by left. }
  intros Hs Hlast. by destruct (H None Hs Hlast) as [?|[_ ?]].
Qed.

Lemma word_tld_letter c :
  tld_char c = true → is_word_char c = true → is_upper c || is_lower c = true.
Proof.
  unfold tld_char, is_word_char, one_of. cbn [list_ascii_of_string existsb].
  destruct (is_upper c), (is_lower c); try done. rewrite !orb_false_r, !orb_false_l.
  intros ->%Ascii.eqb_eq. done.
Qed.

End EmailFormatFacts.

Import Py PySort Backend MaigretService Samples.
Import EmailSyntax.

(** X1. [is_valid_email] accepts exactly the addresses [local@domain.tld]
    where [local] is a non-empty run of [A-Za-z0-9._%+-] that starts with a
    letter, a digit or an underscore, [domain] a non-empty run of
    [A-Za-z0-9.-], and [tld] a run of at least two characters of [A-Za-z|]
    that ends with a letter. *)
Theorem X1_valid_email_shape s : is_valid_email s = true ↔ well_formed_address s.
Proof. apply is_valid_email_spec. Qed.

Lemma X1_witness : is_valid_email "a+x@sub.b-c.co" = true.
Proof.
  apply (proj2 (X1_valid_email_shape "a+x@sub.b-c.co")).
  exists "a+x", "sub.b-c", "co". split_and!; try reflexivity; cbn; lia.
Defined.

(** X2. An address accepted by [is_valid_email] has exactly one ["@"], at
    least six characters, a letter, digit or underscore in front and a
    letter at the end. *)
Theorem X2_valid_email_consequences s :
  is_valid_email s = true →
  occurrences "@" s = 1 ∧
  6 ≤ String.length s ∧
  is_word_opt (next_char s) = true ∧
  ∃ c, last_char None s = Some c ∧ is_upper c || is_lower c = true.
Proof.
  intros (l & d & t & -> & Hln & Hl & Hdn & Hd & Htn & Ht & Hfirst & Hlast)%is_valid_email_spec.
  split_and!.
  - rewrite !occurrences_append.
    rewrite (occurrences_none local_char "@" l), (occurrences_none domain_char "@" d),
      (occurrences_none tld_char "@" t) by done. done.
  - rewrite !length_append. cbn [String.length]. lia.
  - by rewrite next_char_append.
  - rewrite !last_char_append, (last_char_nonempty _ t) by lia.
    destruct (last_char None t) as [c|] eqn:Hc; [|done].
    exists c. split; [done|]. apply word_tld_letter; [|done].
    by apply (last_char_in tld_char t).
Qed.

Lemma X2_witness : occurrences "@" "user@example.com" = 1.
Proof. apply (X2_valid_email_consequences "user@example.com"). reflexivity. Defined.

(** ** The selection of check functions *)

Section CatalogFacts.
Import Py PySort Backend Catalog.

Lemma check_functions_of_spec excl module_name (module : pymodule) f :
  f ∈ check_functions_of excl module_name module ↔
  ∃ site, site_of module_name = Some site ∧ module !! site = Some f ∧
          (excl = true → is_excluded f = false).
Proof.
  unfold check_functions_of, site_of.
  destruct (3 <? length (split "." module_name)); [|split; [by intros ?%elem_of_nil|by intros (? & ? & _)]].
  destruct (last (split "." module_name)) as [site|];
    [|split; [by intros ?%elem_of_nil|by intros (? & ? & _)]].
  destruct (module !! site) as [g|] eqn:Hg.
  - fold (is_excluded g). destruct excl.
    + destruct (is_excluded g) eqn:Hex; cbn [negb].
      * split; [by intros ?%elem_of_nil|].
        intros (? & [= <-] & Hf & Hx). rewrite Hg in Hf. injection Hf as <-.
        specialize (Hx eq_refl). congruence.
      * rewrite list_elem_of_singleton. split.
        -- intros ->. exists site. by split_and!.
        -- intros (? & [= <-] & Hf & _). congruence.
    + rewrite list_elem_of_singleton. split.
      * intros ->. exists site. by split_and!.
      * intros (? & [= <-] & Hf & _). congruence.
  - split; [by intros ?%elem_of_nil|]. intros (? & [= <-] & Hf & _). congruence.
Qed.

Lemma check_functions_of_length excl module_name (module : pymodule) :
  length (check_functions_of excl module_name module) ≤ 1.
Proof.
  unfold check_functions_of. repeat case_match; cbn [length]; lia.
Qed.

Lemma check_functions_of_filter module_name (module : pymodule) :
  check_functions_of true module_name module =
  filter (λ f, is_excluded f = false) (check_functions_of false module_name module).
Proof.
  unfold check_functions_of.
  destruct (3 <? length (split "." module_name)); [|done].
  destruct (last (split "." module_name)) as [site|]; [|done].
  destruct (module !! site) as [g|]; [|done].
  fold (is_excluded g). destruct (is_excluded g) eqn:Hex; cbn [negb].
  - by rewrite filter_cons_False by congruence.
  - by rewrite filter_cons_True by done.
Qed.

Lemma check_functions_member modules excl f :
  f ∈ get_check_functions modules excl ↔
  ∃ module_name module site,
    (module_name, module) ∈ modules ∧
    site_of module_name = Some site ∧
    module !! site = Some f ∧
    (excl = true → is_excluded f = false).
Proof.
  unfold get_check_functions. rewrite list_elem_of_In, in_flat_map. split.
  - intros ([module_name module] & Hin & Hf). cbn [fst snd] in Hf.
    apply list_elem_of_In, check_functions_of_spec in Hf as (site & ? & ? & ?).
    exists module_name, module, site. by rewrite list_elem_of_In.
  - intros (module_name & module & site & Hin & Hsite & Hf & Hx).
    exists (module_name, module). split; [by apply list_elem_of_In|].
    apply list_elem_of_In, check_functions_of_spec. by exists site.
Qed.

End CatalogFacts.

Import Py PySort Backend MaigretService Samples Catalog.

(** X3. [get_check_functions] returns exactly the attributes [module.site]
    of the modules whose dotted name has more than three components, [site]
    being the last component, and, when password-recovery modules are
    excluded, only those whose [str] contains none of the excluded words. *)
Theorem X3_check_functions_membership modules excl f :
  f ∈ get_check_functions modules excl ↔
  ∃ module_name module site,
    (module_name, module) ∈ modules ∧
    site_of module_name = Some site ∧
    module !! site = Some f ∧
    (excl = true → is_excluded f = false).
Proof. apply check_functions_member. Qed.

Lemma X3_witness :
  reporting "github" github_found ∈ get_check_functions three_probes true.
Proof.
  apply (proj2 (X3_check_functions_membership three_probes true _)).
  exists "holehe.modules.social_media.github", {[ "github" := reporting "github" github_found ]},
    "github".
  split_and!; [by left|vm_compute; reflexivity|reflexivity|intros _; vm_compute; reflexivity].
Defined.

(** X4. Excluding password-recovery modules filters the selection made
    without exclusion: the functions kept are those whose [str] contains
    none of "adobe", "mail_ru", "odnoklassniki", "samsung", in the same
    order; and a module contributes at most one function. *)
Theorem X4_exclusion_is_a_filter modules :
  get_check_functions modules true =
    filter (λ f, is_excluded f = false) (get_check_functions modules false) ∧
  (∀ excl, length (get_check_functions modules excl) ≤ length modules) ∧
  ∀ f excluded, f ∈ get_check_functions modules true → excluded ∈ exclude_list →
                contains excluded (probe_str f) = false.
Proof.
  assert (get_check_functions modules true =
          filter (λ f, is_excluded f = false) (get_check_functions modules false)) as Hfilter.
  { unfold get_check_functions. induction modules as [|[n m] modules IH]; [done|].
    cbn [flat_map fst snd]. by rewrite filter_app, <- IH, <- check_functions_of_filter. }
  split; [exact Hfilter|]. split.
  - clear Hfilter. intros excl. unfold get_check_functions.
    induction modules as [|[n m] modules IH]; [done|].
    cbn [flat_map fst snd length]. rewrite length_app.
    pose proof (check_functions_of_length excl n m). lia.
  - intros f excluded Hf Hex. rewrite Hfilter in Hf.
    apply list_elem_of_filter in Hf as [Hf _]. unfold is_excluded in Hf.
    destruct (contains excluded (probe_str f)) eqn:Hc; [|done].
    assert (existsb (λ excluded, contains excluded (probe_str f)) exclude_list = true)
      as Habs; [|congruence].
    apply existsb_exists. exists excluded.
    split; [apply list_elem_of_In; exact Hex|exact Hc].
Qed.

Lemma X4_witness :
  contains "samsung" (probe_str (reporting "github" github_found)) = false.
Proof.
  apply (proj2 (proj2 (X4_exclusion_is_a_filter three_probes))).
  - apply (proj2 (check_functions_member three_probes true _)).
    exists "holehe.modules.social_media.github",
      {[ "github" := reporting "github" github_found ]}, "github".
    split_and!; [by left|vm_compute; reflexivity|reflexivity|intros _; vm_compute; reflexivity].
  - unfold exclude_list. do 3 apply list_elem_of_further. apply list_elem_of_here.
Defined.

(** ** The engine *)

Section SortFailureFacts.
Import Py PySort Backend Catalog.
Context {A : Type} (key : A → pyval).

Lemma py_lt_raises a b e :
  py_lt a b = Raise e → ∃ msg, e = TypeError msg.
Proof.
  unfold py_lt. destruct a, b; cbn [as_number]; try discriminate;
    intros [= <-]; by eexists.
Qed.

Lemma insort_raises x l e :
  insort key x l = Raise e → ∃ msg, e = TypeError msg.
Proof.
  induction l as [|y l IH]; cbn [insort]; [done|].
  destruct (py_lt (key x) (key y)) as [[]|e'] eqn:Hlt; cbn.
  - done.
  - destruct (insort key x l) as [r|e'']; cbn; [done|]. intros [= <-]. by apply IH.
  - intros [= <-]. by eapply py_lt_raises.
Qed.

Lemma list_sort_raises l e :
  list_sort key l = Raise e → ∃ msg, e = TypeError msg.
Proof.
  unfold list_sort. generalize (@nil A) as acc. induction l as [|x l IH]; intros acc; [done|].
  simpl. destruct (insort key x acc) as [acc'|e'] eqn:Hins; simpl.
  - apply IH.
  - rewrite list_sort_raise. intros [= <-]. by eapply insort_raises.
Qed.

(** Keys that [<] relates are both strings or both numbers. *)
Lemma py_le_same_kind a b :
  py_le a b → (is_str a = true ∧ is_str b = true) ∨ (is_number a = true ∧ is_number b = true).
Proof.
  unfold py_le. intros [(s & t & -> & -> & _)|(x & y & Hx & Hy & _)]%py_lt_Ok; [by left|].
  right. destruct a, b; done.
Qed.

(** A sort of two or more elements succeeds only on keys of one kind. *)
Lemma list_sort_Ok_kinds l r :
  list_sort key l = Ok r → 2 ≤ length l →
  Forall (λ x, is_str (key x) = true) l ∨ Forall (λ x, is_number (key x) = true) l.
Proof.
  intros [Hp Hs]%list_sort_spec Hlen. rewrite Hp in Hlen. setoid_rewrite Hp. clear Hp.
  destruct Hs as [|a r Hs Ha]; [cbn in Hlen; lia|].
  destruct r as [|b r]; [cbn in Hlen; lia|].
  pose proof (Forall_inv Ha) as Hab. apply py_le_same_kind in Hab as [[Hsa _]|[Hna _]].
  - left. constructor; [done|]. apply (Forall_impl _ _ _ Ha). intros x Hx.
    apply py_le_same_kind in Hx as [[_ ?]|[Hn _]]; [done|].
    destruct (key a); done.
  - right. constructor; [done|]. apply (Forall_impl _ _ _ Ha). intros x Hx.
    apply py_le_same_kind in Hx as [[Hs' _]|[_ ?]]; [|done].
    destruct (key a); done.
Qed.

End SortFailureFacts.

Section EngineFacts.
Import Py PySort Backend Catalog.

Lemma first_raised_None_inv (tasks : list (list outcome * option pyexc)) :
  first_raised tasks = None → Forall (λ t, t.2 = None) tasks.
Proof.
  unfold first_raised. induction tasks as [|[out [e|]] tasks IH]; [constructor|done|].
  intros H. constructor; [done|]. by apply IH.
Qed.

Lemma first_raised_Some (tasks : list (list outcome * option pyexc)) t e :
  t ∈ tasks → t.2 = Some e → ∃ e', first_raised tasks = Some e'.
Proof.
  intros Ht He. destruct (first_raised tasks) as [e'|] eqn:Hf; [by exists e'|].
  apply first_raised_None_inv in Hf. rewrite list.Forall_forall in Hf.
  specialize (Hf t Ht). congruence.
Qed.

(** What a returned batch tells about the run. *)
Lemma check_email_trio_Ok_inv installed schedule email_ excl timeout results :
  (check_email_trio installed schedule email_ excl timeout).2 = Ok results →
  ∃ modules,
    installed = Some modules ∧
    is_valid_email email_ = true ∧
    Forall (contained email_ (AsyncClient timeout)) (get_check_functions modules excl) ∧
    list_sort sort_key
      (collect schedule
         (contribution email_ (AsyncClient timeout) <$> get_check_functions modules excl))
      = Ok results.
Proof.
  unfold check_email_trio.
  destruct (is_valid_email email_); cbn [negb snd]; [|done].
  destruct installed as [modules|]; cbn [import_holehe_modules snd]; [|done].
  cbv zeta. destruct (first_raised _) eqn:Hf; cbn [snd]; [done|].
  intros Hsort. exists modules. split_and!; [done|done| |].
  - apply first_raised_None_inv in Hf. apply Forall_fmap in Hf.
    apply (Forall_impl _ _ _ Hf). done.
  - by rewrite <- list_fmap_compose in Hsort.
Qed.

End EngineFacts.

Import Py PySort Backend MaigretService Samples Catalog.

(** X5. A check function that raises is reported under its own name: for
    the representation ["<function NAME ...>"] of a plain function, the
    handler of [launch_module_check] records the errored outcome with name
    [NAME] and the domain [DOMAIN_MAP] gives for it (or 'unknown'). *)
Theorem X5_failing_function_keeps_its_name n rest call email_ c appended e :
  plain_name n = true →
  call email_ c = (appended, Some e) →
  exc_is_exception e = true →
  launch_module_check (Probe ("<function " +:+ n +:+ String " " rest) call) email_ c =
    (appended ++ [errored_outcome n (default "unknown" (DOMAIN_MAP !! n))], None).
Proof.
  intros Hn Hcall He. unfold launch_module_check. cbn [probe_call probe_str].
  by rewrite Hcall, He, (probe_name_function n rest Hn).
Qed.

Lemma X5_witness :
  launch_module_check
    (Probe ("<function " +:+ "spotify" +:+ String " " "at 0x7f3a5c1d2e50>")
           (fun _ _ => ([], Some (ValueError "boom"))))
    "x@example.com" (AsyncClient 15) =
  ([] ++ [errored_outcome "spotify" (default "unknown" (DOMAIN_MAP !! "spotify"))], None).
Proof.
  apply (X5_failing_function_keeps_its_name "spotify" "at 0x7f3a5c1d2e50>" _ _ _ []
           (ValueError "boom")); reflexivity.
Defined.

(** X6. The name recovery raises exactly when [str(module)] contains
    ['<function'] without containing ['<function '], and then it raises
    [IndexError]; otherwise it returns the token after the first
    ['<function '], or 'unknown' when there is no ['<function']. *)
Theorem X6_name_recovery_cases s :
  ((∃ e, probe_name s = Raise e) ↔
   contains "<function" s = true ∧ contains "<function " s = false) ∧
  (∀ e, probe_name s = Raise e → e = IndexError "list index out of range") ∧
  (contains "<function " s = true →
   ∃ after token,
     split "<function " s !! 1 = Some after ∧
     split " " after !! 0 = Some token ∧
     probe_name s = Ok token) ∧
  (contains "<function" s = false → probe_name s = Ok "unknown").
Proof.
  destruct (probe_name_cases s) as (Hspaced & Hnone & Hslip).
  assert (∀ e, probe_name s = Raise e →
               contains "<function" s = true ∧ contains "<function " s = false) as Hinv.
  { intros e He. destruct (contains "<function" s) eqn:H1.
    - destruct (contains "<function " s) eqn:H2; [|done].
      destruct (Hspaced eq_refl) as (? & ? & _ & _ & Hok). congruence.
    - rewrite (Hnone eq_refl) in He. done. }
  split_and!; [|..|done|done].
  - split; [intros [e He]; exact (Hinv e He)|]. intros [H1 H2]. eexists. by apply Hslip.
  - intros e He. destruct (Hinv e He) as [H1 H2]. rewrite (Hslip H1 H2) in He. congruence.
Qed.

Lemma X6_witness : probe_name "<lambda-like callable>" = Ok "unknown".
Proof.
  apply (proj2 (proj2 (proj2 (X6_name_recovery_cases "<lambda-like callable>")))).
  reflexivity.
Defined.

(** X7. [results.sort(key=name)] needs names it can order. When two or
    more outcomes are collected and one of them carries the name [None] or
    a dictionary, or one carries a string and another a number,
    [check_email_trio] raises a [TypeError] instead of returning the batch. *)
Theorem X7_unorderable_names_fail_the_batch modules schedule email_ excl timeout :
  is_valid_email email_ = true →
  Forall (contained email_ (AsyncClient timeout)) (get_check_functions modules excl) →
  let outs := concat (contribution email_ (AsyncClient timeout) <$>
                        get_check_functions modules excl) in
  2 ≤ length outs →
  (∃ o, o ∈ outs ∧ is_unorderable (sort_key o) = true) ∨
  (∃ o1 o2, o1 ∈ outs ∧ o2 ∈ outs ∧
            is_str (sort_key o1) = true ∧ is_number (sort_key o2) = true) →
  ∃ msg, (check_email_trio (Some modules) schedule email_ excl timeout).2 =
           Raise (TypeError msg).
Proof.
  intros Hv Hc outs Hlen Hmixed.
  rewrite check_email_trio_contained by done. cbn [snd].
  destruct (list_sort sort_key _) as [r|e] eqn:Hsort.
  - exfalso.
    assert (Forall (λ o, is_str (sort_key o) = true) outs ∨
            Forall (λ o, is_number (sort_key o) = true) outs) as [Hstr|Hnum].
    { unfold outs. setoid_rewrite <- (collect_perm schedule).
      apply (list_sort_Ok_kinds sort_key _ r Hsort). by rewrite collect_perm. }
    + rewrite Forall_forall in Hstr.
      destruct Hmixed as [(o & Ho & Hun)|(o1 & o2 & _ & Ho2 & _ & Hn)].
      * specialize (Hstr o Ho). by destruct (sort_key o).
      * specialize (Hstr o2 Ho2). by destruct (sort_key o2).
    + rewrite Forall_forall in Hnum.
      destruct Hmixed as [(o & Ho & Hun)|(o1 & o2 & Ho1 & _ & Hs & _)].
      * specialize (Hnum o Ho). by destruct (sort_key o).
      * specialize (Hnum o1 Ho1). by destruct (sort_key o1).
  - destruct (list_sort_raises sort_key _ _ Hsort) as [msg ->]. by exists msg.
Qed.

Lemma X7_witness :
  ∃ msg,
    (check_email_trio
       (Some [ holehe_module "github" (reporting "github" github_found);
               holehe_module "odd"
                 (Probe "<function odd at 0x7f3a5c1d2f70>"
                        (fun _ _ => ([ <["name" := VNone]> twitter_absent ], None))) ])
       [] "x@example.com" true 15).2 = Raise (TypeError msg).
Proof.
  apply X7_unorderable_names_fail_the_batch.
  - vm_compute. reflexivity.
  - apply (bool_decide_unpack _). vm_compute. exact I.
  - vm_compute. lia.
  - left. exists (<["name" := VNone]> twitter_absent). split; [|vm_compute; reflexivity].
    apply (elem_of_concat_fmap _ _
             (Probe "<function odd at 0x7f3a5c1d2f70>"
                    (fun _ _ => ([ <["name" := VNone]> twitter_absent ], None))));
      [|apply list_elem_of_here].
    apply (proj2 (check_functions_member _ true _)).
    eexists "holehe.modules.social_media.odd", _, "odd".
    split_and!; [right; left|vm_compute; reflexivity|reflexivity
                |intros _; vm_compute; reflexivity].
Defined.

(** X8. A batch is returned only after the address passed validation, the
    holehe modules were found and no task let an exception out; it then
    holds, whatever the schedule, exactly the dictionaries the tasks
    appended, none lost and none added, in ascending order of name. As soon
    as one task lets an exception out, nothing is returned, the outcomes of
    the other probes included. *)
Theorem X8_returned_batch_is_complete :
  (∀ installed schedule email_ excl timeout results,
     (check_email_trio installed schedule email_ excl timeout).2 = Ok results →
     ∃ modules,
       installed = Some modules ∧
       is_valid_email email_ = true ∧
       Forall (contained email_ (AsyncClient timeout)) (get_check_functions modules excl) ∧
       results ≡ₚ concat (contribution email_ (AsyncClient timeout) <$>
                            get_check_functions modules excl) ∧
       ascending sort_key results) ∧
  (∀ modules schedule email_ excl timeout w e,
     w ∈ get_check_functions modules excl →
     (launch_module_check w email_ (AsyncClient timeout)).2 = Some e →
     ∃ e', (check_email_trio (Some modules) schedule email_ excl timeout).2 = Raise e').
Proof.
  split.
  - intros installed schedule email_ excl timeout results H.
    apply check_email_trio_Ok_inv in H as (modules & -> & Hv & Hc & Hsort).
    exists modules. apply list_sort_spec in Hsort as [Hp Hs].
    split_and!; [done..| |done]. by rewrite <- Hp, collect_perm.
  - intros modules schedule email_ excl timeout w e Hw He.
    destruct (check_email_trio _ _ _ _ _).2 as [results|e'] eqn:H; [|by exists e'].
    apply check_email_trio_Ok_inv in H as (modules' & [= <-] & _ & Hc & _).
    rewrite list.Forall_forall in Hc. specialize (Hc w Hw). unfold contained in Hc.
    congruence.
Qed.

Lemma X8_witness :
  ∃ e, (check_email_trio (Some [ holehe_module "github" (reporting "github" github_found);
                                  holehe_module "probe" object_probe ])
          [0] "x@example.com" true 15).2 = Raise e.
Proof.
  apply (proj2 X8_returned_batch_is_complete _ [0] "x@example.com" true 15%Z object_probe
           (IndexError "list index out of range")).
  - right. left.
  - vm_compute. reflexivity.
Defined.

(** ** The endpoints *)

Section ApiFacts.
Import Py PySort Backend Catalog Api.

Lemma invalid_email_raises installed schedule email_ excl timeout :
  is_valid_email email_ = false →
  check_email_on_platforms installed schedule email_ excl timeout =
    Raise (ValueError ("Invalid email format: " +:+ email_)).
Proof. intros H. unfold check_email_on_platforms, check_email_trio. by rewrite H. Qed.

Lemma missing_holehe_raises schedule email_ excl timeout :
  is_valid_email email_ = true →
  check_email_on_platforms None schedule email_ excl timeout =
    Raise (ImportError "Holehe package not found. Install it with: pip install holehe").
Proof. intros H. unfold check_email_on_platforms, check_email_trio. by rewrite H. Qed.

Lemma returned_batch_valid installed schedule email_ excl timeout raw :
  check_email_on_platforms installed schedule email_ excl timeout = Ok raw →
  is_valid_email email_ = true.
Proof. by intros (? & _ & ? & _)%check_email_trio_Ok_inv. Qed.

Lemma domains_found_spec (raw : list outcome) :
  domains_found raw =
  (λ r, get_or r "domain" (VStr "unknown")) <$> filter (λ r, is_found r = true) raw.
Proof.
  unfold domains_found. f_equal. apply list_filter_iff. intros r.
  unfold is_found, get, get_or. by destruct (r !! "exists").
Qed.

Lemma domains_found_length (raw : list outcome) : length (domains_found raw) ≤ length raw.
Proof. unfold domains_found. rewrite length_fmap. apply length_filter. Qed.

End ApiFacts.

Import Py PySort Backend MaigretService Samples Catalog Api.

(** X9. An address that [EMAIL_FORMAT] rejects is answered with status 400
    by both e-mail endpoints, whatever is installed: by [GET], whose
    parameter is a plain string, with the detail "Invalid email format"; by
    [POST], once [EmailStr] has accepted the address of the body, with the
    engine's message "Invalid email format: <address>". An address that
    [EmailStr] refuses does not reach the handler of [POST]: the answer is
    422. *)
Theorem X9_invalid_address_is_a_client_error `{ES : EmailStr} `{CT : ClassTable}
    installed schedule now :
  (∀ email_ only_found,
     is_valid_email email_ = false →
     check_email_get installed schedule now email_ only_found =
       HTTPException 400 "Invalid email format") ∧
  (∀ email_ excl only_found,
     validate_email email_ = None →
     post_check_email installed schedule now email_ excl only_found = Unprocessable) ∧
  ((∀ msg, isinstance (ValueError msg) "ValueError" = true) →
   ∀ email_ validated excl only_found,
     validate_email email_ = Some validated →
     is_valid_email validated = false →
     post_check_email installed schedule now email_ excl only_found =
       Handled (HTTPException 400 ("Invalid email format: " +:+ validated))).
Proof.
  split_and!.
  - intros email_ only_found Hinvalid. unfold check_email_get. by rewrite Hinvalid.
  - intros email_ excl only_found Hrefused. unfold post_check_email. by rewrite Hrefused.
  - intros Hclass email_ validated excl only_found Haccepted Hinvalid.
    unfold post_check_email. rewrite Haccepted. f_equal.
    unfold check_email_post. cbn [req_email].
    rewrite invalid_email_raises by done. cbn [mbind result_bind].
    by rewrite Hclass.
Qed.

Lemma X9_witness :
  @post_check_email own_class_only simple_email_str (Some three_probes) []
    "2026-11-03T10:00:00" "o'brien@example.com" None None =
  Handled (HTTPException 400 "Invalid email format: o'brien@example.com").
Proof.
  apply (proj2 (proj2 (@X9_invalid_address_is_a_client_error simple_email_str
                         own_class_only (Some three_probes) [] "2026-11-03T10:00:00"))).
  - reflexivity.
  - vm_compute. reflexivity.
  - vm_compute. reflexivity.
Defined.

(** X10. The two e-mail endpoints agree: when [POST] (with the default
    exclusion) answers with a formatted response, [GET] for the same run
    answers too, lists the same platforms in the same order and counts as
    many as [found_count], which is at most [total_checked]. *)
Theorem X10_get_agrees_with_post `{CT : ClassTable}
    installed schedule now email_ only_found only_found' resp :
  check_email_post installed schedule now
    {| req_email := email_; req_exclude_password_recovery := Some true;
       req_only_found := only_found |} = Respond resp →
  ∃ g,
    check_email_get installed schedule now email_ only_found' = Respond g ∧
    get_platforms_found g = VStr <$> platforms_found resp ∧
    get_count g = found_count resp ∧
    found_count resp ≤ total_checked resp.
Proof.
  unfold check_email_post. cbn [req_email req_exclude_password_recovery req_only_found].
  change (flag (Some true)) with true.
  destruct (check_email_on_platforms installed schedule email_ true 15) as [raw|e] eqn:Hraw;
    cbn [mbind result_bind]; [|intros; repeat case_match; done].
  destruct (format_results now raw email_ _) as [resp'|e] eqn:Hresp; [|intros; repeat case_match; done].
  intros [= ->]. unfold check_email_get.
  rewrite (returned_batch_valid _ _ _ _ _ _ Hraw), Hraw. cbn [negb].
  eexists. split; [reflexivity|]. cbn [get_platforms_found get_count].
  apply format_results_Ok in Hresp as (infos & Hinfos & ->).
  cbn [platforms_found found_count total_checked].
  assert (domains_found raw =
          VStr <$> (platform <$> filter (λ i, exists_ i = true) infos)) as Hsame.
  { rewrite domains_found_spec, (found_platforms _ _ Hinfos). by rewrite filter_found_kept. }
  split_and!.
  - done.
  - by rewrite Hsame, !length_fmap.
  - transitivity (length (domains_found raw)); [|apply domains_found_length].
    by rewrite Hsame, !length_fmap.
Qed.

Lemma X10_witness :
  ∃ g,
    @check_email_get own_class_only (Some three_probes) [2; 0] "2026-11-03T10:00:00"
      "x@example.com" true = Respond g ∧
    get_platforms_found g = [VStr "github.com"] ∧ get_count g = 1.
Proof.
  eassert (@check_email_post own_class_only (Some three_probes) [2; 0]
             "2026-11-03T10:00:00"
             {| req_email := "x@example.com"; req_exclude_password_recovery := Some true;
                req_only_found := None |} = Respond _) as Hpost
    by (vm_compute; reflexivity).
  destruct (@X10_get_agrees_with_post own_class_only _ _ _ _ _ true _ Hpost)
    as (g & Hg & Hp & Hc & _).
  exists g. split_and!; [exact Hg|exact Hp|exact Hc].
Defined.

(** X11. When the holehe package cannot be imported, a valid address gets
    status 500 from every endpoint that needs it: [POST] with the
    "Holehe module error" hint, [GET] with "Internal error", and the
    platform listing with "Error loading platforms". *)
Theorem X11_missing_holehe_is_a_server_error `{CT : ClassTable} schedule now email_ :
  is_valid_email email_ = true →
  (∀ msg, isinstance (ImportError msg) "ValueError" = false) →
  (∀ msg, isinstance (ImportError msg) "ImportError" = true) →
  (∀ msg, isinstance (ImportError msg) "HTTPException" = false) →
  (∀ excl only_found,
     check_email_post None schedule now
       {| req_email := email_; req_exclude_password_recovery := excl;
          req_only_found := only_found |} =
       HTTPException 500
         ("Holehe module error: Holehe package not found. Install it with: pip install holehe"
          +:+ ". Make sure holehe is installed.")) ∧
  (∀ only_found,
     check_email_get None schedule now email_ only_found =
       HTTPException 500
         "Internal error: Holehe package not found. Install it with: pip install holehe") ∧
  get_supported_platforms None =
    HTTPException 500
      "Error loading platforms: Holehe package not found. Install it with: pip install holehe".
Proof.
  intros Hv H1 H2 H3. split_and!.
  - intros excl only_found. unfold check_email_post. cbn [req_email].
    rewrite missing_holehe_raises by done. cbn [mbind result_bind].
    by rewrite H1, H2.
  - intros only_found. unfold check_email_get. rewrite Hv. cbn [negb].
    rewrite missing_holehe_raises by done. by rewrite H3.
  - reflexivity.
Qed.

Lemma X11_witness :
  @check_email_get own_class_only None [] "2026-11-03T10:00:00" "x@example.com" true =
  HTTPException 500
    "Internal error: Holehe package not found. Install it with: pip install holehe".
Proof.
  apply (@X11_missing_holehe_is_a_server_error own_class_only [] "2026-11-03T10:00:00"
           "x@example.com"); reflexivity.
Defined.

Section BatchFacts.
Import Py PySort Backend Catalog Api.

Lemma batch_loop_dom installed schedules emails : ∀ i results results',
  batch_loop installed schedules i emails results = Ok results' →
  dom results' = dom results ∪ list_to_set emails.
Proof.
  induction emails as [|email rest IH]; intros i results results'; cbn [batch_loop].
  - intros [= ->]. cbn. by rewrite (right_id_L ∅ (∪)).
  - assert (∀ entry, dom (<[email:=entry]> results) ∪ list_to_set rest
                     = dom results ∪ list_to_set (email :: rest)) as Hdom.
    { intros entry. rewrite dom_insert_L. cbn [list_to_set].
      rewrite (comm_L (∪) {[email]} (dom results)). by rewrite (assoc_L (∪)). }
    destruct (check_email_on_platforms _ _ _ _ _) as [raw|e].
    + intros ->%IH. apply Hdom.
    + destruct (exc_is_exception e); [|done].
      intros ->%IH. apply Hdom.
Qed.

Lemma batch_loop_invalid installed schedules emails : ∀ i results results' e,
  batch_loop installed schedules i emails results = Ok results' →
  is_valid_email e = false →
  e ∈ emails ∨ results !! e = Some (failed_entry ("Invalid email format: " +:+ e)) →
  results' !! e = Some (failed_entry ("Invalid email format: " +:+ e)).
Proof.
  induction emails as [|email rest IH]; intros i results results' e; cbn [batch_loop].
  - intros [= ->] _ [Hin|]; [|done]. by apply elem_of_nil in Hin.
  - intros Hloop Hinvalid Hin.
    destruct (decide (e = email)) as [->|Hne].
    + rewrite invalid_email_raises in Hloop by done. cbn [exc_is_exception ValueError] in Hloop.
      eapply IH; [exact Hloop|done|]. right. by rewrite lookup_insert_eq.
    + assert (e ∈ rest ∨ results !! e = Some (failed_entry ("Invalid email format: " +:+ e)))
        as Hrest.
      { destruct Hin as [Hin|]; [|by right].
        apply elem_of_cons in Hin as [|]; [done|by left]. }
      destruct (check_email_on_platforms _ _ _ _ _) as [raw|err].
      * eapply IH; [exact Hloop|done|].
        destruct Hrest; [by left|right]. by rewrite lookup_insert_ne.
      * destruct (exc_is_exception err); [|done].
        eapply IH; [exact Hloop|done|].
        destruct Hrest; [by left|right]. by rewrite lookup_insert_ne.
Qed.

Lemma batch_loop_valid installed schedules emails : ∀ i results results' e entry,
  batch_loop installed schedules i emails results = Ok results' →
  results' !! e = Some entry →
  entry_count entry = length (entry_platforms_found entry) ∧
  (entry_success entry = true ↔ entry_error entry = None) ∨
  results !! e = Some entry.
Proof.
  induction emails as [|email rest IH]; intros i results results' e entry; cbn [batch_loop].
  - intros [= ->] ?. by right.
  - destruct (check_email_on_platforms _ _ _ _ _) as [raw|err].
    + intros Hloop Hentry. destruct (IH _ _ _ _ _ Hloop Hentry) as [|Hold]; [by left|].
      destruct (decide (e = email)) as [->|Hne].
      * rewrite lookup_insert_eq in Hold. injection Hold as <-. left. by cbn.
      * rewrite lookup_insert_ne in Hold by done. by right.
    + destruct (exc_is_exception err); [|done].
      intros Hloop Hentry. destruct (IH _ _ _ _ _ Hloop Hentry) as [|Hold]; [by left|].
      destruct (decide (e = email)) as [->|Hne].
      * rewrite lookup_insert_eq in Hold. injection Hold as <-. left. by cbn.
      * rewrite lookup_insert_ne in Hold by done. by right.
Qed.

Lemma batch_loop_total installed schedules emails : ∀ i results,
  (∀ j email err,
     email ∈ emails →
     check_email_on_platforms installed (schedules j) email true 15 = Raise err →
     exc_is_exception err = true) →
  ∃ results', batch_loop installed schedules i emails results = Ok results'.
Proof.
  induction emails as [|email rest IH]; intros i results Hexc; cbn [batch_loop].
  - by eexists.
  - assert (∀ j email' err,
              email' ∈ rest →
              check_email_on_platforms installed (schedules j) email' true 15 = Raise err →
              exc_is_exception err = true) as Hrest.
    { intros j email' err Hin. apply Hexc. by apply list_elem_of_further. }
    destruct (check_email_on_platforms _ _ _ _ _) as [raw|err] eqn:Hrun.
    + by apply IH.
    + rewrite (Hexc _ _ _ (list_elem_of_here _ _) Hrun). by apply IH.
Qed.

Lemma size_list_to_set_le (l : list string) :
  size (list_to_set l : gset string) ≤ length l.
Proof.
  induction l as [|x l IH]; cbn [list_to_set foldr length].
  - by rewrite size_empty.
  - destruct (decide (x ∈ (list_to_set l : gset string))) as [Hin|Hout].
    + rewrite (subseteq_union_1_L {[x]} (list_to_set l)); [lia|].
      by apply singleton_subseteq_l.
    + rewrite size_union by (by apply disjoint_singleton_l).
      rewrite size_singleton. lia.
Qed.

End BatchFacts.

Section PlatformFacts.
Import Py PySort Backend Catalog Api.

Lemma platform_loop_spec websites : ∀ acc names,
  platform_loop websites acc = Ok names →
  NoDup acc →
  NoDup names ∧
  ∀ d, d ∈ names ↔
       d ∈ acc ∨ ∃ w name, w ∈ websites ∧ probe_name (probe_str w) = Ok name ∧
                            d = listed_domain name.
Proof.
  induction websites as [|w rest IH]; intros acc names; cbn [platform_loop].
  - intros [= ->] Hnd. split; [done|]. intros d. split; [by left|].
    intros [|(? & ? & Hin & _)]; [done|]. by apply elem_of_nil in Hin.
  - destruct (probe_name (probe_str w)) as [name|e] eqn:Hname; cbn [mbind result_bind]; [|done].
    fold (listed_domain name). case_bool_decide as Hseen.
    + intros Hloop Hnd. destruct (IH _ _ Hloop Hnd) as [Hnd' Hmem]. split; [done|].
      intros d. rewrite Hmem. split.
      * intros [|(w' & n' & Hw' & Hn' & ->)]; [by left|right].
        exists w', n'. split_and!; [by apply list_elem_of_further|done|done].
      * intros [|(w' & n' & Hw' & Hn' & ->)]; [by left|].
        apply elem_of_cons in Hw' as [->|Hw'].
        -- left. rewrite Hname in Hn'. by injection Hn' as <-.
        -- right. by exists w', n'.
    + intros Hloop Hnd.
      assert (NoDup (acc ++ [listed_domain name])) as Hnd1.
      { apply NoDup_app. split_and!; [done| |apply NoDup_singleton].
        intros x Hx ->%list_elem_of_singleton. done. }
      destruct (IH _ _ Hloop Hnd1) as [Hnd' Hmem]. split; [done|].
      intros d. rewrite Hmem, elem_of_app, list_elem_of_singleton. split.
      * intros [[?| ->]|(w' & n' & Hw' & Hn' & ->)]; [by left| |].
        -- right. exists w, name. split_and!; [apply list_elem_of_here|done|done].
        -- right. exists w', n'. split_and!; [by apply list_elem_of_further|done|done].
      * intros [|(w' & n' & Hw' & Hn' & ->)]; [by left; left|].
        apply elem_of_cons in Hw' as [->|Hw'].
        -- left. right. rewrite Hname in Hn'. by injection Hn' as <-.
        -- right. by exists w', n'.
Qed.

Lemma platform_loop_total websites : ∀ acc,
  (∀ w, w ∈ websites → ∃ name, probe_name (probe_str w) = Ok name) →
  ∃ names, platform_loop websites acc = Ok names.
Proof.
  induction websites as [|w rest IH]; intros acc Hall; cbn [platform_loop].
  - by eexists.
  - destruct (Hall w) as [name ->]; [apply list_elem_of_here|]. cbn [mbind result_bind].
    case_bool_decide; apply IH; intros w' Hw'; apply Hall; by apply list_elem_of_further.
Qed.

Lemma probe_name_Raise_inv s e :
  probe_name s = Raise e → e = IndexError "list index out of range".
Proof.
  destruct (probe_name_cases s) as (Hspaced & Hnone & Hslip). intros He.
  destruct (contains "<function" s) eqn:H1.
  - destruct (contains "<function " s) eqn:H2.
    + destruct (Hspaced eq_refl) as (? & ? & _ & _ & Hok). congruence.
    + rewrite (Hslip eq_refl eq_refl) in He. congruence.
  - rewrite (Hnone eq_refl) in He. done.
Qed.

Lemma platform_loop_raises websites : ∀ acc w e,
  w ∈ websites → probe_name (probe_str w) = Raise e →
  platform_loop websites acc = Raise (IndexError "list index out of range").
Proof.
  induction websites as [|w0 rest IH]; intros acc w e Hin Hraise; cbn [platform_loop].
  - by apply elem_of_nil in Hin.
  - destruct (probe_name (probe_str w0)) as [name|e0] eqn:Hname; cbn [mbind result_bind].
    + apply elem_of_cons in Hin as [->|Hin]; [congruence|].
      case_bool_decide; by eapply IH.
    + by rewrite (probe_name_Raise_inv _ _ Hname).
Qed.

Lemma ascending_strict (l : list string) :
  ascending VStr l → NoDup l → StronglySorted (λ a b, String.ltb a b = true) l.
Proof.
  induction 1 as [|a l Hs IH Hall]; intros Hnd; [constructor|].
  apply NoDup_cons in Hnd as [Hout Hnd]. constructor; [by apply IH|].
  apply Forall_forall. intros b Hb.
  assert (key_le VStr a b) as Hle by (by eapply Forall_forall in Hall).
  unfold key_le in Hle. cbn in Hle. injection Hle as Hle.
  destruct (String.ltb a b) eqn:Hab; [done|].
  exfalso. apply Hout. by rewrite (string_ltb_antisym a b).
Qed.

End PlatformFacts.

Import Py PySort Backend MaigretService Samples Catalog Api.

(** X12. [POST /api/batch-check]: one address that [EmailStr] refuses makes
    the answer 422, nothing being checked. Otherwise more than five
    addresses are refused with status 400 before anything is checked; and
    for at most five, when no run for one of them ends with an exception
    outside [Exception], the endpoint answers: one entry per distinct
    validated address (so at most [total_emails], which counts repeats),
    every entry's count being the length of its platform list, and an
    address that [EMAIL_FORMAT] rejects getting a failed entry with the
    engine's message while the other addresses are still checked. *)
Theorem X12_batch_check `{ES : EmailStr} installed schedules now emails :
  (∀ email_, email_ ∈ emails → validate_email email_ = None →
     post_batch_check installed schedules now emails = Unprocessable) ∧
  (∀ validated,
     mapM validate_email emails = Some validated →
     (5 < length emails →
      post_batch_check installed schedules now emails =
        Handled (HTTPException 400 "Maximum 5 emails per batch request")) ∧
     (length emails ≤ 5 →
      (∀ j email err,
         email ∈ validated →
         check_email_on_platforms installed (schedules j) email true 15 = Raise err →
         exc_is_exception err = true) →
      ∃ resp,
        post_batch_check installed schedules now emails = Handled (Respond resp) ∧
        batch_success resp = true ∧
        total_emails resp = length emails ∧
        dom (batch_results resp) = list_to_set validated ∧
        size (batch_results resp) ≤ total_emails resp ∧
        (∀ e entry, batch_results resp !! e = Some entry →
           entry_count entry = length (entry_platforms_found entry) ∧
           (entry_success entry = true ↔ entry_error entry = None)) ∧
        (∀ e, e ∈ validated → is_valid_email e = false →
           batch_results resp !! e =
             Some (failed_entry ("Invalid email format: " +:+ e))))).
Proof.
  unfold post_batch_check. split.
  - intros email_ Hin Hrefused.
    rewrite (mapM_None_2 validate_email emails); [done|].
    apply Exists_exists. by exists email_.
  - intros validated Hvalidated. rewrite Hvalidated.
    pose proof (length_mapM _ _ _ Hvalidated) as Hlen.
    unfold batch_check_emails. rewrite <- Hlen. split.
    + intros Hmany. by rewrite (proj2 (Nat.ltb_lt _ _) Hmany).
    + intros Hfew Hexc. rewrite (proj2 (Nat.ltb_ge _ _) Hfew).
      destruct (batch_loop_total installed schedules validated 0 ∅ Hexc) as [results Hloop].
      rewrite Hloop. eexists. split; [reflexivity|].
      cbn [batch_success total_emails batch_results].
      assert (dom results = list_to_set validated) as Hdom.
      { rewrite (batch_loop_dom _ _ _ _ _ _ Hloop), dom_empty_L.
        by rewrite (left_id_L ∅ (∪)). }
      split_and!; [done|done|done| | |].
      * rewrite <- size_dom, Hdom, Hlen. apply size_list_to_set_le.
      * intros e entry Hentry.
        destruct (batch_loop_valid _ _ _ _ _ _ _ _ Hloop Hentry) as [|Hold]; [done|].
        by rewrite lookup_empty in Hold.
      * intros e He Hinvalid. eapply batch_loop_invalid; [exact Hloop|done|by left].
Qed.

Lemma X12_witness :
  ∃ resp,
    @post_batch_check simple_email_str (Some three_probes) (λ _, [2; 0])
      "2026-11-03T10:00:00"
      ["x@example.com"; "o'brien@example.com"; "x@example.com"] = Handled (Respond resp) ∧
    size (batch_results resp) ≤ 3 ∧
    batch_results resp !! "o'brien@example.com" =
      Some (failed_entry "Invalid email format: o'brien@example.com").
Proof.
  destruct (proj2 (@X12_batch_check simple_email_str (Some three_probes) (λ _, [2; 0])
                     "2026-11-03T10:00:00"
                     ["x@example.com"; "o'brien@example.com"; "x@example.com"])
              ["x@example.com"; "o'brien@example.com"; "x@example.com"])
    as [_ Hanswers].
  - vm_compute. reflexivity.
  - destruct Hanswers as (resp & Hresp & _ & Htotal & _ & Hsize & _ & Hinvalid).
    + cbn [length]; lia.
    + intros j email err _ Hraise.
      destruct (is_valid_email email) eqn:Hv.
      * unfold check_email_on_platforms in Hraise.
        rewrite check_email_trio_contained in Hraise;
          [|done|apply (bool_decide_unpack _); vm_compute; exact I].
        cbn [snd] in Hraise.
        match type of Hraise with
        | list_sort ?k ?l = _ => destruct (list_sort_total k l) as [r Hr]
        end; [apply (bool_decide_unpack _); vm_compute; exact I|congruence].
      * rewrite invalid_email_raises in Hraise by done. by injection Hraise as <-.
    + exists resp. split_and!; [exact Hresp|by rewrite Htotal in Hsize|].
      apply Hinvalid; [apply list_elem_of_further, list_elem_of_here|].
      vm_compute; reflexivity.
Defined.

(** X13. When [get_supported_platforms] answers, the platforms are in
    strictly ascending order (so none is listed twice), [total_platforms]
    is their number, and a domain is listed exactly when it is the
    [DOMAIN_MAP] entry, or failing that the bare name, of a selected check
    function. It answers whenever holehe is installed and every selected
    function's name can be recovered. *)
Theorem X13_supported_platforms modules :
  (∀ resp,
     get_supported_platforms (Some modules) = Respond resp →
     platforms_success resp = true ∧
     StronglySorted (λ a b, String.ltb a b = true) (platforms resp) ∧
     total_platforms resp = length (platforms resp) ∧
     ∀ d, d ∈ platforms resp ↔
          ∃ w name, w ∈ get_check_functions modules true ∧
                    probe_name (probe_str w) = Ok name ∧
                    d = listed_domain name) ∧
  ((∀ w, w ∈ get_check_functions modules true →
         ∃ name, probe_name (probe_str w) = Ok name) →
   ∃ resp, get_supported_platforms (Some modules) = Respond resp).
Proof.
  unfold get_supported_platforms. cbn [import_holehe_modules mbind result_bind].
  assert (∀ names : list string, ∃ sorted,
            list_sort VStr names = Ok sorted ∧ sorted ≡ₚ names ∧ ascending VStr sorted)
    as Hsort.
  { intros names. destruct (list_sort_total VStr names) as [sorted Hsorted].
    - apply Forall_forall. intros x _. reflexivity.
    - exists sorted. split; [done|]. by apply list_sort_spec in Hsorted as [? ?]. }
  split.
  - intros resp.
    destruct (platform_loop _ []) as [names|e] eqn:Hloop; cbn [mbind result_bind];
      [|by destruct (exc_is_exception e)].
    destruct (Hsort names) as (sorted & -> & Hperm & Hasc).
    cbn [mbind result_bind]. intros [= <-].
    cbn [platforms_success total_platforms platforms].
    destruct (platform_loop_spec _ _ _ Hloop (NoDup_nil_2)) as [Hnd Hmem].
    split_and!; [done| |by rewrite Hperm|].
    + apply ascending_strict; [done|]. by rewrite Hperm.
    + intros d. rewrite Hperm, Hmem. split; [|by right].
      intros [Hin|]; [|done]. by apply elem_of_nil in Hin.
  - intros Hall. destruct (platform_loop_total _ [] Hall) as [names ->].
    cbn [mbind result_bind].
    destruct (Hsort names) as (sorted & -> & _). by eexists.
Qed.

Lemma X13_witness :
  ∃ resp, get_supported_platforms (Some three_probes) = Respond resp.
Proof.
  apply (proj2 (X13_supported_platforms three_probes)).
  intros w Hw.
  assert (Forall (λ w, ∃ name, probe_name (probe_str w) = Ok name)
            (get_check_functions three_probes true)) as Hall.
  { repeat constructor; eexists; vm_compute; reflexivity. }
  by apply (proj1 (Forall_forall _ _) Hall).
Defined.

(** X14. One selected callable whose [str()] contains '<function' without
    the space after it (an object of a class [Probe] of a module
    [functions], say) makes the whole platform listing fail with status 500: the name recovery raises
    [IndexError] and nothing is listed. *)
Theorem X14_one_odd_callable_fails_the_listing modules w :
  w ∈ get_check_functions modules true →
  contains "<function" (probe_str w) = true →
  contains "<function " (probe_str w) = false →
  get_supported_platforms (Some modules) =
    HTTPException 500 "Error loading platforms: list index out of range".
Proof.
  intros Hw H1 H2. unfold get_supported_platforms.
  cbn [import_holehe_modules mbind result_bind].
  destruct (probe_name_cases (probe_str w)) as (_ & _ & Hslip).
  by rewrite (platform_loop_raises _ [] w _ Hw (Hslip H1 H2)).
Qed.

Lemma X14_witness :
  get_supported_platforms
    (Some (holehe_module "spotify" object_probe :: three_probes)) =
  HTTPException 500 "Error loading platforms: list index out of range".
Proof.
  apply (X14_one_odd_callable_fails_the_listing _ object_probe).
  - apply (proj2 (check_functions_member _ true _)).
    exists "holehe.modules.social_media.spotify", {[ "spotify" := object_probe ]}, "spotify".
    split_and!; [by left|vm_compute; reflexivity|reflexivity|intros _; vm_compute; reflexivity].
  - vm_compute. reflexivity.
  - vm_compute. reflexivity.
Defined.

(** ** The heat map *)

Section HeatmapFacts.
Import Py PyFloat Api Heatmap.
Open Scope Z_scope.

(** All pairs [0 <= x <= y], [1 <= y <= 100], by computation. *)
Lemma table_checked :
  forallb (λ y, forallb (λ x, value_ok x y && ((y <=? x) || step_ok x y))
                        (seqZ 0 (y + 1)))
          (seqZ 1 100) = true.
Proof. vm_compute. reflexivity. Qed.

Lemma value_checked x y :
  1 ≤ y ≤ 100 → 0 ≤ x ≤ y →
  value_ok x y = true ∧ (x < y → step_ok x y = true).
Proof.
  intros Hy Hx. pose proof table_checked as Htable.
  rewrite forallb_forall in Htable.
  assert (In y (seqZ 1 100)) as Hiny by (apply list_elem_of_In, elem_of_seqZ; lia).
  specialize (Htable y Hiny). rewrite forallb_forall in Htable.
  assert (In x (seqZ 0 (y + 1))) as Hinx by (apply list_elem_of_In, elem_of_seqZ; lia).
  specialize (Htable x Hinx). apply andb_true_iff in Htable as [Hv Hs].
  split; [done|]. intros Hlt. apply orb_true_iff in Hs as [Hge|]; [|done].
  apply Z.leb_le in Hge. lia.
Qed.

Lemma normalized_value_shift v lo hi :
  normalized_value v lo hi = normalized_value (v - lo) 0 (hi - lo).
Proof. unfold normalized_value. by rewrite !Z.sub_0_r. Qed.

Lemma exact_value_shift v lo hi : exact_value v lo hi = exact_value (v - lo) 0 (hi - lo).
Proof. unfold exact_value. by rewrite !Z.sub_0_r. Qed.

Lemma normalized_value_spec v lo hi :
  lo ≤ v ≤ hi → 1 ≤ hi - lo ≤ 100 →
  ∃ r, normalized_value v lo hi = Ok r ∧
       0 ≤ r ≤ 100 ∧
       exact_value v lo hi - 1 ≤ r ≤ exact_value v lo hi ∧
       (v = lo → r = 0) ∧ (v = hi → r = 100).
Proof.
  intros Hv Hspread.
  destruct (value_checked (v - lo) (hi - lo)) as [Hok _]; [lia..|].
  rewrite normalized_value_shift, exact_value_shift. unfold value_ok in Hok.
  destruct (normalized_value (v - lo) 0 (hi - lo)) as [r|]; [|done].
  exists r. split; [done|].
  rewrite !andb_true_iff in Hok. destruct Hok as (((((H0 & H100) & Hle) & Hge) & Hlo) & Hhi).
  apply Z.leb_le in H0, H100, Hle, Hge.
  split_and!; [lia..| |].
  - intros ->. rewrite Z.sub_diag in Hlo. cbn in Hlo. by apply Z.eqb_eq in Hlo.
  - intros ->. rewrite Z.eqb_refl in Hhi. cbn in Hhi. by apply Z.eqb_eq in Hhi.
Qed.

Lemma normalized_value_step v lo hi r r' :
  lo ≤ v < hi → hi - lo ≤ 100 →
  normalized_value v lo hi = Ok r → normalized_value (v + 1) lo hi = Ok r' → r ≤ r'.
Proof.
  intros Hv Hspread.
  rewrite (normalized_value_shift v lo hi), (normalized_value_shift (v + 1) lo hi).
  destruct (value_checked (v - lo) (hi - lo)) as [_ Hstep]; [lia..|].
  specialize (Hstep ltac:(lia)). unfold step_ok in Hstep.
  replace (v + 1 - lo) with (v - lo + 1) by lia.
  intros Hr Hr'. rewrite Hr, Hr' in Hstep. by apply Z.leb_le in Hstep.
Qed.

Lemma normalized_value_mono v v' lo hi r r' :
  lo ≤ v → v ≤ v' → v' ≤ hi → 1 ≤ hi - lo ≤ 100 →
  normalized_value v lo hi = Ok r → normalized_value v' lo hi = Ok r' → r ≤ r'.
Proof.
  intros Hlo Hle Hhi Hspread Hr.
  assert (∃ n : nat, v' = v + Z.of_nat n) as [n ->] by (exists (Z.to_nat (v' - v)); lia).
  clear Hle. revert r' Hhi.
  induction n as [|n IH]; intros r' Hhi Hr'.
  - rewrite Z.add_0_r in Hr'. rewrite Hr in Hr'. injection Hr' as <-. lia.
  - destruct (normalized_value_spec (v + Z.of_nat n) lo hi) as (m & Hm & _); [lia..|].
    transitivity m; [apply IH; [lia|done]|].
    apply (normalized_value_step (v + Z.of_nat n) lo hi); [lia|lia|done|].
    by replace (v + Z.of_nat n + 1) with (v + Z.of_nat (S n)) by lia.
Qed.

Lemma minimum_spec first rest :
  minimum first rest ∈ first :: rest ∧ ∀ x, x ∈ first :: rest → minimum first rest ≤ x.
Proof.
  unfold minimum. revert first. induction rest as [|y rest IH]; intros first; cbn [foldl].
  - split; [apply list_elem_of_here|]. intros x ->%list_elem_of_singleton. lia.
  - destruct (IH (Z.min first y)) as [Hin Hle]. split.
    + apply elem_of_cons in Hin as [->|Hin].
      * destruct (Z.min_spec first y) as [[_ ->]|[_ ->]];
          [apply list_elem_of_here|apply list_elem_of_further, list_elem_of_here].
      * by do 2 apply list_elem_of_further.
    + intros x Hx. apply elem_of_cons in Hx as [->|Hx].
      * specialize (Hle (Z.min first y) (list_elem_of_here _ _)). lia.
      * apply elem_of_cons in Hx as [->|Hx].
        -- specialize (Hle (Z.min first y) (list_elem_of_here _ _)). lia.
        -- apply Hle. by apply list_elem_of_further.
Qed.

Lemma maximum_spec first rest :
  maximum first rest ∈ first :: rest ∧ ∀ x, x ∈ first :: rest → x ≤ maximum first rest.
Proof.
  unfold maximum. revert first. induction rest as [|y rest IH]; intros first; cbn [foldl].
  - split; [apply list_elem_of_here|]. intros x ->%list_elem_of_singleton. lia.
  - destruct (IH (Z.max first y)) as [Hin Hle]. split.
    + apply elem_of_cons in Hin as [->|Hin].
      * destruct (Z.max_spec first y) as [[_ ->]|[_ ->]];
          [apply list_elem_of_further, list_elem_of_here|apply list_elem_of_here].
      * by do 2 apply list_elem_of_further.
    + intros x Hx. apply elem_of_cons in Hx as [->|Hx].
      * specialize (Hle (Z.max first y) (list_elem_of_here _ _)). lia.
      * apply elem_of_cons in Hx as [->|Hx].
        -- specialize (Hle (Z.max first y) (list_elem_of_here _ _)). lia.
        -- apply Hle. by apply list_elem_of_further.
Qed.

Lemma normalize_loop_inv lo hi data : ∀ acc result,
  normalize_loop lo hi data acc = Ok result →
  ∃ out, result = acc ++ out ∧ Forall2 (normalized_to lo hi) data out.
Proof.
  induction data as [|item data IH]; intros acc result; cbn [normalize_loop].
  - intros [= <-]. exists []. by rewrite app_nil_r.
  - destruct (normalized_value (score item) lo hi) as [v|] eqn:Hv; cbn [mbind result_bind];
      [|done].
    intros (out & -> & Hout)%IH. exists (with_score item v :: out).
    split; [by rewrite <- app_assoc|]. by constructor.
Qed.

Lemma normalize_loop_total lo hi data : ∀ acc,
  Forall (λ item, ∃ r, normalized_value (score item) lo hi = Ok r) data →
  ∃ result, normalize_loop lo hi data acc = Ok result.
Proof.
  induction data as [|item data IH]; intros acc Hall; cbn [normalize_loop]; [by eexists|].
  apply Forall_cons in Hall as [[r ->] Hall]. cbn [mbind result_bind]. by apply IH.
Qed.

(** The three ways [normalize_scores] goes. *)
Lemma normalize_scores_cases data :
  (data = [] ∧ normalize_scores data = Ok []) ∨
  ∃ lo hi,
    lo ∈ score <$> data ∧ hi ∈ score <$> data ∧
    Forall (λ item, lo ≤ score item ≤ hi) data ∧
    ((lo = hi ∧ normalize_scores data = Ok ((λ item, with_score item 100) <$> data)) ∨
     (lo < hi ∧ normalize_scores data = normalize_loop lo hi data [])).
Proof.
  unfold normalize_scores. destruct data as [|item data]; [by left|right].
  cbn [fmap list_fmap]. change (list_fmap scored Z score data) with (score <$> data).
  destruct (minimum_spec (score item) (score <$> data)) as [Hlo_in Hlo].
  destruct (maximum_spec (score item) (score <$> data)) as [Hhi_in Hhi].
  exists (minimum (score item) (score <$> data)), (maximum (score item) (score <$> data)).
  split_and!; [done|done| |].
  - apply Forall_forall. intros x Hx.
    assert (score x ∈ score item :: (score <$> data)) as Hs.
    { change (score x ∈ score <$> item :: data). by apply list_elem_of_fmap_2. }
    split; [by apply Hlo|by apply Hhi].
  - cbv zeta. destruct (Z.eqb_spec (minimum (score item) (score <$> data))
                                   (maximum (score item) (score <$> data))) as [Heq|Hne].
    + by left.
    + right. split; [|done]. specialize (Hlo _ Hhi_in). lia.
Qed.

Lemma bounds_unique (data : list scored) lo hi lo' hi' :
  lo ∈ score <$> data → hi ∈ score <$> data →
  Forall (λ item, lo ≤ score item ≤ hi) data →
  lo' ∈ score <$> data → hi' ∈ score <$> data →
  Forall (λ item, lo' ≤ score item ≤ hi') data →
  lo' = lo ∧ hi' = hi.
Proof.
  intros (a & -> & Ha)%list_elem_of_fmap (b & -> & Hb)%list_elem_of_fmap Hall
         (a' & -> & Ha')%list_elem_of_fmap (b' & -> & Hb')%list_elem_of_fmap Hall'.
  rewrite Forall_forall in Hall, Hall'.
  pose proof (Hall a' Ha'). pose proof (Hall b' Hb').
  pose proof (Hall' a Ha). pose proof (Hall' b Hb). lia.
Qed.

Lemma Forall2_countries lo hi data out :
  Forall2 (normalized_to lo hi) data out → country <$> out = country <$> data.
Proof.
  induction 1 as [|item o data out [Hc _] _ IH]; [done|]. cbn. by rewrite Hc, IH.
Qed.

Lemma density_countries (randint : nat → Z) names :
  country <$> imap (λ i name_, {| country := name_; score := randint i |}) names = names.
Proof.
  revert randint. induction names as [|n names IH]; intros randint; [done|].
  cbn [imap fmap list_fmap country]. f_equal. apply (IH (randint ∘ S)).
Qed.

Lemma density_scores (randint : nat → Z) names :
  (∀ i, 0 ≤ randint i ≤ 100) →
  Forall (λ item, 0 ≤ score item ≤ 100)
         (imap (λ i name_, {| country := name_; score := randint i |}) names).
Proof.
  revert randint. induction names as [|n names IH]; intros randint Hrange; [constructor|].
  cbn [imap]. constructor; [apply Hrange|].
  apply (IH (randint ∘ S)). intros i. apply Hrange.
Qed.

Lemma normalize_scores_in_range data :
  Forall (λ item, 0 ≤ score item ≤ 100) data →
  ∃ result,
    normalize_scores data = Ok result ∧
    country <$> result = country <$> data ∧
    Forall (λ r, 0 ≤ score r ≤ 100) result.
Proof.
  intros Hrange.
  destruct (normalize_scores_cases data)
    as [[-> ->]|(lo & hi & Hlo & Hhi & Hall & [[_ ->]|[Hlt ->]])].
  - by exists [].
  - eexists. split_and!; [done| |].
    + rewrite <- list_fmap_compose. by apply list_fmap_ext.
    + apply Forall_fmap, Forall_forall. intros item _. cbn. lia.
  - assert (0 ≤ lo ∧ hi ≤ 100) as [Hlo0 Hhi100].
    { rewrite Forall_forall in Hrange.
      apply list_elem_of_fmap in Hlo as (a & -> & Ha).
      apply list_elem_of_fmap in Hhi as (b & -> & Hb).
      pose proof (Hrange a Ha). pose proof (Hrange b Hb). lia. }
    destruct (normalize_loop_total lo hi data []) as [result Hresult].
    { apply (Forall_impl _ _ _ Hall). intros item Hitem.
      destruct (normalized_value_spec (score item) lo hi) as (r & Hr & _); [lia..|].
      by exists r. }
    exists result. split; [done|].
    apply normalize_loop_inv in Hresult as (out & -> & Hout). cbn [app].
    split; [by eapply Forall2_countries|].
    clear Hlo Hhi Hrange.
    induction Hout as [|item o data out [Hc Hv] _ IH]; [constructor|].
    apply Forall_cons in Hall as [Hitem Hall]. constructor; [|by apply IH].
    destruct (normalized_value_spec (score item) lo hi) as (r & Hr & ? & _); [lia..|].
    rewrite Hr in Hv. by injection Hv as <-.
Qed.

End HeatmapFacts.

Import Py PyFloat Api Heatmap.

(** X15. [normalize_scores] keeps the items and their order and changes
    scores only; and when all scores are equal (a single item, say, or
    every score 0) each of them becomes 100. *)
Theorem X15_normalize_keeps_countries data :
  (∀ result, normalize_scores data = Ok result →
             country <$> result = country <$> data) ∧
  (∀ c, Forall (λ item, score item = c) data →
        normalize_scores data = Ok ((λ item, with_score item 100) <$> data)).
Proof.
  split.
  - intros result.
    destruct (normalize_scores_cases data)
      as [[-> ->]|(lo & hi & _ & _ & _ & [[_ ->]|[_ ->]])].
    + by intros [= <-].
    + intros [= <-]. rewrite <- list_fmap_compose. by apply list_fmap_ext.
    + intros (out & -> & Hout)%normalize_loop_inv. by eapply Forall2_countries.
  - intros c Hc.
    destruct (normalize_scores_cases data)
      as [[-> ->]|(lo & hi & Hlo & Hhi & _ & [[_ ->]|[Hlt _]])]; [done..|].
    exfalso. rewrite Forall_forall in Hc.
    apply list_elem_of_fmap in Hlo as (a & -> & Ha).
    apply list_elem_of_fmap in Hhi as (b & -> & Hb).
    rewrite (Hc a Ha), (Hc b Hb) in Hlt. lia.
Qed.

Lemma X15_witness :
  normalize_scores [ {| country := "Fiji"; score := 0 |};
                     {| country := "Chad"; score := 0 |} ] =
  Ok [ {| country := "Fiji"; score := 100 |}; {| country := "Chad"; score := 100 |} ].
Proof.
  exact (proj2 (X15_normalize_keeps_countries
                  [ {| country := "Fiji"; score := 0 |};
                    {| country := "Chad"; score := 0 |} ]) 0%Z
               ltac:(repeat constructor)).
Defined.

(** X16. For scores that are not all equal and span at most 100 (as those
    drawn by [random.randint(0, 100)] do), [normalize_scores] returns;
    every new score lies between 0 and 100, an item with the lowest score
    gets 0 and an item with the highest score gets 100. *)
Theorem X16_normalize_range data lo hi :
  lo ∈ score <$> data → hi ∈ score <$> data →
  Forall (λ item, (lo ≤ score item ≤ hi)%Z) data →
  (lo < hi)%Z → (hi - lo ≤ 100)%Z →
  ∃ result,
    normalize_scores data = Ok result ∧
    Forall2 (λ item r,
               country r = country item ∧
               (0 ≤ score r ≤ 100)%Z ∧
               (score item = lo → score r = 0%Z) ∧
               (score item = hi → score r = 100%Z)) data result.
Proof.
  intros Hlo Hhi Hall Hlt Hspread.
  destruct (normalize_scores_cases data)
    as [[-> _]|(lo' & hi' & Hlo' & Hhi' & Hall' & Hcase)];
    [by apply elem_of_nil in Hlo|].
  destruct (bounds_unique data lo hi lo' hi') as [-> ->]; [done..|].
  destruct Hcase as [[-> _]|[_ Hloop]]; [lia|]. rewrite Hloop.
  destruct (normalize_loop_total lo hi data []) as [result Hresult].
  { apply (Forall_impl _ _ _ Hall). intros item Hitem.
    destruct (normalized_value_spec (score item) lo hi) as (r & Hr & _); [lia..|].
    by exists r. }
  exists result. split; [done|].
  apply normalize_loop_inv in Hresult as (out & -> & Hout). cbn [app].
  clear Hloop Hlo Hhi Hlo' Hhi' Hall'.
  induction Hout as [|item o data out [Hc Hv] _ IH]; [constructor|].
  apply Forall_cons in Hall as [Hitem Hall]. constructor; [|by apply IH].
  destruct (normalized_value_spec (score item) lo hi) as (r & Hr & ? & _ & ? & ?); [lia..|].
  rewrite Hr in Hv. injection Hv as <-. done.
Qed.

Lemma X16_witness :
  ∃ result,
    normalize_scores [ {| country := "Fiji"; score := 12 |};
                       {| country := "Chad"; score := 41 |};
                       {| country := "Peru"; score := 62 |} ] = Ok result ∧
    score <$> result = [0; 57; 100]%Z.
Proof.
  destruct (X16_normalize_range
              [ {| country := "Fiji"; score := 12 |};
                {| country := "Chad"; score := 41 |};
                {| country := "Peru"; score := 62 |} ] 12 62)
    as (result & Hresult & _).
  - apply list_elem_of_here.
  - do 2 apply list_elem_of_further. apply list_elem_of_here.
  - repeat constructor; cbn; lia.
  - lia.
  - lia.
  - exists result. split; [exact Hresult|].
    assert (normalize_scores [ {| country := "Fiji"; score := 12 |};
                               {| country := "Chad"; score := 41 |};
                               {| country := "Peru"; score := 62 |} ] =
            Ok [ {| country := "Fiji"; score := 0 |};
                 {| country := "Chad"; score := 57 |};
                 {| country := "Peru"; score := 100 |} ]) as Hrun
      by (vm_compute; reflexivity).
    rewrite Hrun in Hresult. by injection Hresult as <-.
Defined.

(** X17. Under the same conditions the new scores keep the order of the
    old ones, and each is the exact value, the floor of
    [100 (v - lo) / (hi - lo)], or one less: the float arithmetic can lose
    one (29 in the range 0..50 gives 57, not 58) and never gains. *)
Theorem X17_normalize_order_and_error data lo hi result :
  lo ∈ score <$> data → hi ∈ score <$> data →
  Forall (λ item, (lo ≤ score item ≤ hi)%Z) data →
  (lo < hi)%Z → (hi - lo ≤ 100)%Z →
  normalize_scores data = Ok result →
  (∀ i a ra, data !! i = Some a → result !! i = Some ra →
     (exact_value (score a) lo hi - 1 ≤ score ra ≤ exact_value (score a) lo hi)%Z) ∧
  (∀ i j a b ra rb,
     data !! i = Some a → data !! j = Some b →
     result !! i = Some ra → result !! j = Some rb →
     (score a ≤ score b)%Z → (score ra ≤ score rb)%Z).
Proof.
  intros Hlo Hhi Hall Hlt Hspread.
  destruct (normalize_scores_cases data)
    as [[-> _]|(lo' & hi' & Hlo' & Hhi' & Hall' & Hcase)];
    [by apply elem_of_nil in Hlo|].
  destruct (bounds_unique data lo hi lo' hi') as [-> ->]; [done..|].
  destruct Hcase as [[-> _]|[_ ->]]; [lia|].
  intros (out & -> & Hout)%normalize_loop_inv. cbn [app].
  rewrite Forall_forall in Hall.
  assert (∀ i a ra, data !! i = Some a → out !! i = Some ra →
                    (lo ≤ score a ≤ hi)%Z ∧
                    normalized_value (score a) lo hi = Ok (score ra)) as Hat.
  { intros i a ra Ha Hra. split; [by eapply Hall, list_elem_of_lookup_2|].
    by destruct (Forall2_lookup_lr _ _ _ _ _ _ Hout Ha Hra). }
  split.
  - intros i a ra Ha Hra. destruct (Hat _ _ _ Ha Hra) as [Hin Hv].
    destruct (normalized_value_spec (score a) lo hi) as (r & Hr & _ & ? & _); [lia..|].
    rewrite Hr in Hv. by injection Hv as <-.
  - intros i j a b ra rb Ha Hb Hra Hrb Hle.
    destruct (Hat _ _ _ Ha Hra) as [Hina Hva]. destruct (Hat _ _ _ Hb Hrb) as [Hinb Hvb].
    apply (normalized_value_mono (score a) (score b) lo hi); [lia..|done|done].
Qed.

Lemma X17_witness :
  (exact_value 29 0 50 - 1 ≤ 57 ≤ exact_value 29 0 50)%Z.
Proof.
  apply (proj1 (X17_normalize_order_and_error
                  [ {| country := "Fiji"; score := 0 |};
                    {| country := "Chad"; score := 29 |};
                    {| country := "Peru"; score := 50 |} ] 0 50
                  [ {| country := "Fiji"; score := 0 |};
                    {| country := "Chad"; score := 57 |};
                    {| country := "Peru"; score := 100 |} ]
                  ltac:(apply list_elem_of_here)
                  ltac:(do 2 apply list_elem_of_further; apply list_elem_of_here)
                  ltac:(repeat constructor; cbn; lia)
                  ltac:(lia) ltac:(lia)
                  ltac:(vm_compute; reflexivity))
          1%nat {| country := "Chad"; score := 29 |} {| country := "Chad"; score := 57 |});
    reflexivity.
Defined.

(** X18. [GET /search] refuses the empty keyword with status 400, and for
    every other keyword it answers: one result per name of
    [COUNTRY_NAMES], in that order, each with a score between 0 and 100. *)
Theorem X18_search_answers COUNTRY_NAMES random keyword :
  (keyword = "" →
   search_keyword COUNTRY_NAMES random keyword = HTTPException 400 "Keyword is required") ∧
  (keyword ≠ "" →
   (∀ i, (0 ≤ random keyword i ≤ 100)%Z) →
   ∃ results,
     search_keyword COUNTRY_NAMES random keyword =
       Respond {| search_keyword_ := keyword; search_results := results |} ∧
     country <$> results = COUNTRY_NAMES ∧
     Forall (λ r, (0 ≤ score r ≤ 100)%Z) results).
Proof.
  unfold search_keyword, get_country_search_density. split.
  - by intros ->.
  - intros Hne Hrange. rewrite (proj2 (String.eqb_neq _ _) Hne).
    destruct (normalize_scores_in_range _ (density_scores (random keyword) COUNTRY_NAMES Hrange))
      as (results & -> & Hnames & Hscores).
    exists results. split_and!; [done| |done].
    by rewrite Hnames, density_countries.
Qed.

Lemma X18_witness :
  ∃ results,
    search_keyword ["Fiji"; "Chad"; "Peru"] (λ keyword i, Z.of_nat (String.length keyword + 29 * i) mod 101)%Z
      "osint" = Respond {| search_keyword_ := "osint"; search_results := results |} ∧
    country <$> results = ["Fiji"; "Chad"; "Peru"].
Proof.
  destruct (proj2 (X18_search_answers ["Fiji"; "Chad"; "Peru"]
                     (λ keyword i, Z.of_nat (String.length keyword + 29 * i) mod 101)%Z "osint"))
    as (results & Hresults & Hnames & _).
  - discriminate.
  - intros i. cbv beta.
    pose proof (Z.mod_pos_bound (Z.of_nat (String.length "osint" + 29 * i)) 101). lia.
  - by exists results.
Defined.

(** ** Cleaning rows for JSON *)

Section JsonFacts.
Import PyFloat TikSpyder.

(** Induction over values, through lists and dictionaries. *)
Lemma pyobj_induction (P : pyobj → Prop) :
  P PNone → (∀ b, P (PBool b)) → (∀ n, P (PInt n)) → (∀ f, P (PFloat f)) →
  (∀ s, P (PStr s)) →
  (∀ items, Forall P items → P (PList items)) →
  (∀ items, Forall (λ kv, P kv.2) items → P (PDict items)) →
  ∀ obj, P obj.
Proof.
  intros HNone HBool HInt HFloat HStr HList HDict. fix IH 1.
  intros [ |b|n|f|s|items|items].
  - exact HNone.
  - apply HBool.
  - apply HInt.
  - apply HFloat.
  - apply HStr.
  - apply HList. induction items as [|x items IHitems]; constructor; [apply IH|exact IHitems].
  - apply HDict. induction items as [|[k v] items IHitems]; constructor;
      [apply IH|exact IHitems].
Qed.

Lemma _json_safe_clean obj : json_clean (_json_safe obj) = true.
Proof.
  induction obj as [ |b|n|f|s|items IH|items IH] using pyobj_induction; try done.
  - cbn [_json_safe]. destruct (isnan f || isinf f) eqn:Hf; [done|].
    cbn [json_clean]. by rewrite Hf.
  - cbn [_json_safe json_clean]. rewrite forallb_forall. intros x Hx.
    apply in_map_iff in Hx as (y & <- & Hy).
    rewrite Forall_forall in IH. apply IH. by apply list_elem_of_In.
  - cbn [_json_safe json_clean]. rewrite forallb_forall. intros [k x] Hx.
    apply in_map_iff in Hx as ([k' y] & [= <- <-] & Hy).
    rewrite Forall_forall in IH. apply (IH (k', y)). by apply list_elem_of_In.
Qed.

Lemma _json_safe_fixed obj : json_clean obj = true → _json_safe obj = obj.
Proof.
  induction obj as [ |b|n|f|s|items IH|items IH] using pyobj_induction; try done.
  - cbn [_json_safe json_clean]. by intros ->%negb_true_iff.
  - cbn [_json_safe json_clean]. intros Hclean. f_equal.
    induction IH as [|x items Hx _ IHitems]; [done|].
    cbn [forallb] in Hclean. apply andb_true_iff in Hclean as [H1 H2].
    cbn [map]. by rewrite Hx, IHitems.
  - cbn [_json_safe json_clean]. intros Hclean. f_equal.
    induction IH as [|[k x] items Hx _ IHitems]; [done|].
    cbn [forallb] in Hclean. apply andb_true_iff in Hclean as [H1 H2].
    cbn [map]. cbn [snd] in Hx. by rewrite Hx, IHitems.
Qed.

End JsonFacts.

Import PyFloat TikSpyder.

(** X19. What [_json_safe] returns holds no NaN and no infinity, at any
    depth; cleaning twice is cleaning once; and the values it leaves as
    they are are exactly those that held none in the first place. *)
Theorem X19_json_safe_cleans obj :
  json_clean (_json_safe obj) = true ∧
  _json_safe (_json_safe obj) = _json_safe obj ∧
  (_json_safe obj = obj ↔ json_clean obj = true).
Proof.
  split_and!.
  - apply _json_safe_clean.
  - apply _json_safe_fixed, _json_safe_clean.
  - split; [|apply _json_safe_fixed].
    intros Hfixed. rewrite <- Hfixed. apply _json_safe_clean.
Qed.

Lemma X19_witness :
  _json_safe (PList [PDict [("likes", PInt 3); ("title", PStr "a")]]) =
  PList [PDict [("likes", PInt 3); ("title", PStr "a")]].
Proof.
  apply (proj2 (proj2 (proj2 (X19_json_safe_cleans
           (PList [PDict [("likes", PInt 3); ("title", PStr "a")]]))))).
  reflexivity.
Defined.
